(** * Autonity consensus core: message store, codecs and upon-rules

    A shallow embedding of the Go sources of the Tendermint core of
    Autonity, with the properties its specification states about them.

    - [MsgStore]        the message store (MsgStore.Save, Get,
                        FirstHeightBuffered, DeleteMsgsBeforeHeight);
    - [Codec]           Proposal and Vote EncodeRLP / DecodeRLP;
    - [Accountability]  typedMessage and Proof EncodeRLP / DecodeRLP;
    - [Core]            handleMsg, handleCurrentHeightMessage,
                        checkUponConditions and the timeout dispatch of
                        mainEventLoop.

    Go integers are modelled by [Z] and [N] with the conversions between
    int64 and uint64 written out; Go maps by stdpp's [gmap]; a nil pointer
    by [None]; a run-time panic by the [Panic] outcome. *)

From Stdlib Require Import ZArith NArith List Bool Lia.
From Stdlib.Strings Require Import Byte.
From stdpp Require Import base option gmap list.

Set Default Proof Using "Type".
Set Warnings "-register-all".

(** ** Values shared by the packages *)

(** common.Hash: 32 bytes, read as a number; [common.Hash{}] is zero. *)
Definition common_Hash := N.
(** common.Address: 20 bytes, read as a number. *)
Definition common_Address := N.

(** types.Block is not among the sources; the handlers only look at a
    block through [Number()] and [Hash()]. *)
Record Block := mkBlock { Number : Z; BlockHash : common_Hash }.

(** Two blocks of number 10 to run the code on. *)
Definition block7 : Block := {| Number := 10; BlockHash := 7%N |}.
Definition block8 : Block := {| Number := 10; BlockHash := 8%N |}.

(** ** The message store *)

Module MsgStore.

(** mUtils.Message, as far as the store reads it: [H()] (and [Height()]),
    [Round()], the [Code] and [Address] fields, and the rest of the
    message. *)
Record Message := mkMessage {
  H : N;            (* uint64 *)
  Round : Z;        (* int64 *)
  Code : N;         (* uint8 *)
  Address : common_Address;
  Payload : list N
}.

(** map[Height]map[Round]map[MsgType]map[common.address][]*Message *)
Record MsgStore := mkStore {
  firstHeight : N;
  messages : gmap N (gmap Z (gmap N (gmap N (list Message))))
}.

Definition NewMsgStore : MsgStore :=
  {| firstHeight := 0%N; messages := ∅ |}.

(** Save. The Go code creates the inner maps on demand and updates them
    in place; every inner map has one owner, so the update is the
    re-insertion along the path. *)
Definition Save (m : Message) (ms : MsgStore) : MsgStore :=
  let firstHeight' :=
    if (firstHeight ms =? 0)%N then H m else firstHeight ms in
  let roundMap := default ∅ (messages ms !! H m) in
  let msgTypeMap := default ∅ (roundMap !! Round m) in
  let addressMap := default ∅ (msgTypeMap !! Code m) in
  let msgs' :=
    match addressMap !! Address m with
    | None => [] ++ [m]
    | Some msgs => msgs ++ [m]
    end in
  {| firstHeight := firstHeight';
     messages :=
       <[H m := <[Round m := <[Code m :=
          <[Address m := msgs']> addressMap]> msgTypeMap]> roundMap]>
       (messages ms) |}.

Definition FirstHeightBuffered (ms : MsgStore) : N := firstHeight ms.

(** DeleteMsgsBeforeHeight: every key [h <= height] is deleted; the
    field [firstHeight] is not written. *)
Definition DeleteMsgsBeforeHeight (height : N) (ms : MsgStore) : MsgStore :=
  {| firstHeight := firstHeight ms;
     messages :=
       filter (λ kv : N * gmap Z (gmap N (gmap N (list Message))),
                 ¬ (kv.1 <= height)%N) (messages ms) |}.

(** The slice stored under a (height, round, kind, sender) key; a missing
    entry reads as the nil slice. *)
Definition stored (ms : MsgStore) (h : N) (r : Z) (c : N) (a : common_Address)
    : list Message :=
  let roundMap := default ∅ (messages ms !! h) in
  let msgTypeMap := default ∅ (roundMap !! r) in
  let addressMap := default ∅ (msgTypeMap !! c) in
  default [] (addressMap !! a).

(** Get: the four nested loops over the maps and the slice. Go ranges over
    a map in an unspecified order; here the order is that of the keys. *)
Definition Get (height : N) (query : Message → bool) (ms : MsgStore)
    : list Message :=
  match messages ms !! height with
  | None => []
  | Some roundMap =>
    msgTypeMap ← map_to_list roundMap;
    addressMap ← map_to_list msgTypeMap.2;
    msgs ← map_to_list addressMap.2;
    filter (λ msg, query msg = true) msgs.2
  end.

Definition key (m : Message) : N * Z * N * common_Address :=
  (H m, Round m, Code m, Address m).

(** Two distinct messages of the same sender, kind, round and height. *)
Definition m5 : Message :=
  {| H := 5%N; Round := 0%Z; Code := 1%N; Address := 7%N; Payload := [1%N] |}.

Definition m5' : Message :=
  {| H := 5%N; Round := 0%Z; Code := 1%N; Address := 7%N; Payload := [2%N] |}.

(** RemoveMsg: [delete(ms.messages[height][round][step], sender)]. Reading
    a missing key of a map gives the nil map, and deleting from the nil map
    does nothing. *)
Definition RemoveMsg (height : N) (round : Z) (step : N)
    (sender : common_Address) (ms : MsgStore) : MsgStore :=
  match messages ms !! height with
  | None => ms
  | Some roundMap =>
    match roundMap !! round with
    | None => ms
    | Some msgTypeMap =>
      match msgTypeMap !! step with
      | None => ms
      | Some addressMap =>
        {| firstHeight := firstHeight ms;
           messages :=
             <[height := <[round := <[step := delete sender addressMap]>
                msgTypeMap]> roundMap]> (messages ms) |}
      end
    end
  end.

(** The methods that write the store, and a sequence of calls on it. *)
Inductive op :=
| OpSave (m : Message)
| OpDelete (height : N)
| OpRemove (height : N) (round : Z) (step : N) (sender : common_Address).

Definition apply_op (ms : MsgStore) (o : op) : MsgStore :=
  match o with
  | OpSave m => Save m ms
  | OpDelete height => DeleteMsgsBeforeHeight height ms
  | OpRemove height round step sender => RemoveMsg height round step sender ms
  end.

Definition run (ops : list op) (ms : MsgStore) : MsgStore :=
  fold_left apply_op ops ms.

(** The heights of the messages saved by a sequence of calls, in order. *)
Fixpoint saved_heights (ops : list op) : list N :=
  match ops with
  | [] => []
  | OpSave m :: ops' => H m :: saved_heights ops'
  | _ :: ops' => saved_heights ops'
  end.

(** The first height of a list that is not zero, zero when there is none. *)
Fixpoint first_nonzero (hs : list N) : N :=
  match hs with
  | [] => 0%N
  | h :: hs' => if (h =? 0)%N then first_nonzero hs' else h
  end.

End MsgStore.

(** ** Proposal and Vote codecs *)

Module Codec.

Local Open Scope Z_scope.

(** Modelled from the spec: the constant MaxRound is declared outside the
    sources; "bounded by MAX_ROUND = 99". *)
Definition MaxRound : Z := 99.

(** Go's conversions between int64 and uint64 keep the 64 bits. *)
Definition uint64 (x : Z) : Z := x mod 2 ^ 64.

Definition int64 (x : Z) : Z :=
  let y := x mod 2 ^ 64 in if y <? 2 ^ 63 then y else y - 2 ^ 64.

Inductive error :=
| errEncodeNilBlock          (* "encoderlp proposal with nil block" *)
| errNegativeBigInt          (* refused by rlp.Encode *)
| errBadValidRoundNil        (* "bad proposal validRound with isValidround nil" *)
| errInvalidRounds           (* "bad proposal with invalid rounds" *)
| errNilDecodedBlock         (* "bad proposal with nil decoded block" *)
| errInvalidMessage.

Inductive result (A : Type) :=
| Ok (a : A)
| Err (e : error).
Arguments Ok {A} a.
Arguments Err {A} e.

Definition bind {A B : Type} (x : result A) (f : A → result B) : result B :=
  match x with
  | Ok a => f a
  | Err e => Err e
  end.

(** The fields the two methods of Proposal read and write. *)
Record Proposal := mkProposal {
  Round : Z;                       (* int64 *)
  Height : Z;                      (* *big.Int *)
  ValidRound : Z;                  (* int64 *)
  ProposalBlock : option Block     (* *types.Block *)
}.

(** The field list [EncodeRLP] hands to rlp.Encode, which is also the
    anonymous struct that [s.Decode] fills in [DecodeRLP]. *)
Record wireProposal := mkWireProposal {
  wRound : Z;                      (* uint64 *)
  wHeight : Z;                     (* *big.Int *)
  wValidRound : Z;                 (* uint64 *)
  wIsValidRoundNil : bool;
  wProposalBlock : option Block
}.

(** Modelled from the spec: package rlp is not among the sources. Of
    rlp.Encode the model keeps that "the underlying encoding cannot
    express negative integers": a negative big integer is refused, and the
    unsigned and opaque fields go through unchanged. *)
Definition rlp_Encode (w : wireProposal) : result wireProposal :=
  if wHeight w <? 0 then Err errNegativeBigInt else Ok w.

Definition Proposal_EncodeRLP (p : Proposal) : result wireProposal :=
  match ProposalBlock p with
  | None => Err errEncodeNilBlock
  | Some _ =>
    let '(validRound, isValidRoundNil) :=
      if ValidRound p =? -1 then (0, true)
      else (uint64 (ValidRound p), false) in
    rlp_Encode
      {| wRound := uint64 (Round p);
         wHeight := Height p;
         wValidRound := validRound;
         wIsValidRoundNil := isValidRoundNil;
         wProposalBlock := ProposalBlock p |}
  end.

(** [validRound] is an int64 and [proposal.Round] a uint64; both are
    compared with the untyped constant MaxRound. *)
Definition Proposal_DecodeRLP (proposal : wireProposal) : result Proposal :=
  bind
    (if wIsValidRoundNil proposal then
       if negb (wValidRound proposal =? 0) then Err errBadValidRoundNil
       else Ok (-1)
     else Ok (int64 (wValidRound proposal)))
    (λ validRound,
       if negb ((validRound <=? MaxRound) && (wRound proposal <=? MaxRound))
       then Err errInvalidRounds
       else
         match wProposalBlock proposal with
         | None => Err errNilDecodedBlock
         | Some _ =>
           Ok {| Round := int64 (wRound proposal);
                 Height := wHeight proposal;
                 ValidRound := validRound;
                 ProposalBlock := wProposalBlock proposal |}
         end).

(** Prevotes and precommits are both a Vote. *)
Record Vote := mkVote {
  vRound : Z;                      (* int64 *)
  vHeight : Z;                     (* *big.Int *)
  ProposedBlockHash : common_Hash
}.

Record wireVote := mkWireVote {
  wvRound : Z;                     (* uint64 *)
  wvHeight : Z;
  wvProposedBlockHash : common_Hash
}.

(** Modelled from the spec: rlp.Encode on the field list of a vote, as
    [rlp_Encode] ("cannot express negative integers"). *)
Definition rlp_Encode_vote (w : wireVote) : result wireVote :=
  if wvHeight w <? 0 then Err errNegativeBigInt else Ok w.

Definition Vote_EncodeRLP (sub : Vote) : result wireVote :=
  rlp_Encode_vote
    {| wvRound := uint64 (vRound sub);
       wvHeight := vHeight sub;
       wvProposedBlockHash := ProposedBlockHash sub |}.

(** The round is converted to int64 first and compared afterwards. *)
Definition Vote_DecodeRLP (vote : wireVote) : result Vote :=
  let round := int64 (wvRound vote) in
  if round >? MaxRound then Err errInvalidMessage
  else Ok {| vRound := round;
             vHeight := wvHeight vote;
             ProposedBlockHash := wvProposedBlockHash vote |}.

(** *** Inputs to run the codecs on *)

(** A vote whose wire round has all 64 bits set. *)
Definition wireVote_top : wireVote :=
  {| wvRound := 2 ^ 64 - 1; wvHeight := 1; wvProposedBlockHash := 7%N |}.

(** A proposal whose wire valid round has all 64 bits set, flag unset. *)
Definition wireProposal_top : wireProposal :=
  {| wRound := 0; wHeight := 1; wValidRound := 2 ^ 64 - 1;
     wIsValidRoundNil := false; wProposalBlock := Some block7 |}.

(** A first proposal in round 100. *)
Definition proposal100 : Proposal :=
  {| Round := 100; Height := 1; ValidRound := -1;
     ProposalBlock := Some block7 |}.

Definition proposal3 : Proposal :=
  {| Round := 3; Height := 10; ValidRound := -1;
     ProposalBlock := Some block7 |}.

Definition vote3 : Vote :=
  {| vRound := 3; vHeight := 10; ProposedBlockHash := 7%N |}.

(** The values of an int64. *)
Definition is_int64 (x : Z) : Prop := - 2 ^ 63 <= x < 2 ^ 63.

(** The values of a uint64, the type of the rounds on the wire. *)
Definition wire_uint64 (x : Z) : Prop := 0 <= x < 2 ^ 64.

(** Wire forms and messages for the statements about the decoders. *)
Definition wireProposal3 : wireProposal :=
  {| wRound := 3; wHeight := 10; wValidRound := 0; wIsValidRoundNil := true;
     wProposalBlock := Some block7 |}.

Definition wireVote3 : wireVote :=
  {| wvRound := 3; wvHeight := 10; wvProposedBlockHash := 7%N |}.

(** A proposal and a vote with negative rounds other than -1. *)
Definition proposal_neg : Proposal :=
  {| Round := 3; Height := 10; ValidRound := -5;
     ProposalBlock := Some block7 |}.

Definition vote_neg : Vote :=
  {| vRound := -5; vHeight := 10; ProposedBlockHash := 7%N |}.

End Codec.

(** ** Typed evidence and Proof codecs *)

Module Accountability.

(** Modelled from the spec: package rlp is not among the sources. A value
    on the wire is a byte string or a list of values ("canonical
    length-prefixed binary scheme"); the length prefixes themselves play no
    part in what the methods below do. *)
Inductive item :=
| Str (b : list byte)
| Lst (l : list item).

Inductive error :=
| ErrExpectedString          (* rlp.ErrExpectedString *)
| ErrExpectedList            (* stream.List() on a string *)
| ErrEOL                     (* the enclosing list has no further value *)
| ErrNotAtEOL                (* stream.ListEnd() before the end of the list *)
| ErrCanonInt                (* an integer that is not a minimal uint8 *)
| ErrElems                   (* a struct with too few or too many values *)
| ErrMessage                 (* the message's own decoder failed *)
| ErrUnaddressable           (* rlp.Encode on a value without an address whose
                                EncodeRLP has a pointer receiver *)
| errUnexpectedCode.

Inductive result (A : Type) :=
| Ok (a : A)
| Err (e : error).
Arguments Ok {A} a.
Arguments Err {A} e.

Definition bind {A B : Type} (x : result A) (f : A → result B) : result B :=
  match x with
  | Ok a => f a
  | Err e => Err e
  end.

(** Modelled from the spec: "Codes: 0=proposal, 1=prevote, 2=precommit,
    3=light-proposal"; the constants live in package message. *)
Inductive kind := KProposal | KPrevote | KPrecommit | KLightProposal.

(** Modelled from the spec: "0=proposal". *)
Definition ProposalCode : byte := Byte.x00.
(** Modelled from the spec: "1=prevote". *)
Definition PrevoteCode : byte := Byte.x01.
(** Modelled from the spec: "2=precommit". *)
Definition PrecommitCode : byte := Byte.x02.
(** Modelled from the spec: "3=light-proposal". *)
Definition LightProposalCode : byte := Byte.x03.

Definition kind_Code (k : kind) : byte :=
  match k with
  | KProposal => ProposalCode
  | KPrevote => PrevoteCode
  | KPrecommit => PrecommitCode
  | KLightProposal => LightProposalCode
  end.

(** Modelled from the spec: an unsigned integer is written as its minimal
    big-endian byte string, so zero is the empty string and any other
    uint8 is the one byte ("one-byte kind tag", "[type:u8, rule:u8, ...]"). *)
Definition encUint8 (b : byte) : item :=
  if Byte.eqb b Byte.x00 then Str [] else Str [b].

(** Modelled from the spec: the reading of [encUint8]; a string that is
    not the minimal form of a uint8 is refused. *)
Definition decUint8 (i : item) : result byte :=
  match i with
  | Str [] => Ok Byte.x00
  | Str [b] => if Byte.eqb b Byte.x00 then Err ErrCanonInt else Ok b
  | Str _ => Err ErrCanonInt
  | Lst _ => Err ErrExpectedString
  end.

Fixpoint mapM {A B : Type} (f : A → result B) (l : list A) : result (list B) :=
  match l with
  | [] => Ok []
  | x :: l' => bind (f x) (λ y, bind (mapM f l') (λ ys, Ok (y :: ys)))
  end.

Section Codec.

(** The messages of package message (Prevote, Precommit, LightProposal,
    Propose) and their own EncodeRLP / DecodeRLP are not among the
    sources: a message is its kind and its content, and the content's codec
    is a parameter. *)
Variable body : Type.
Variable encodeBody : kind → body → item.
Variable decodeBody : kind → item → option body.

Record Message := mkMessage { msgKind : kind; msgBody : body }.

Definition Code (m : Message) : byte := kind_Code (msgKind m).

(** [message.Message] is an interface. What a Proof or a typedMessage holds
    in it is a pointer to a message of package message or a typedMessage
    value: [typedMessage struct { message.Message }] embeds the interface
    and so has its methods itself. *)
Inductive MessageValue :=
| Pointer (m : Message)
| TypedMessage (t : MessageValue).

(** The message behind the typedMessage values, to which they forward the
    methods of the interface. *)
Fixpoint embedded (v : MessageValue) : Message :=
  match v with
  | Pointer m => m
  | TypedMessage t => embedded t
  end.

(** typedMessage.EncodeRLP, on the typedMessage that embeds [t], writes
    [[]any{t.Code(), t.Message}]. A pointer to a message is written by the
    message's own EncodeRLP. Package rlp is not among the sources: of a
    typedMessage held by value in the interface, which has no address
    while EncodeRLP has a pointer receiver, rlp.Encode returns the error
    "rlp: unadressable value of type accountability.typedMessage,
    EncodeRLP is pointer method". *)
Definition typedMessage_EncodeRLP (t : MessageValue) : result item :=
  match t with
  | Pointer m =>
    Ok (Lst [encUint8 (Code m); encodeBody (msgKind m) (msgBody m)])
  | TypedMessage _ => Err ErrUnaddressable
  end.

(** typedMessage.DecodeRLP: [stream.List()], [stream.Bytes()], the switch
    on [b[0]], [stream.Decode(p)] and [stream.ListEnd()]. The result is the
    pointer [p] that it stores in [t.Message]. *)
Definition typedMessage_DecodeRLP (stream : item) : result Message :=
  match stream with
  | Str _ => Err ErrExpectedList
  | Lst l =>
    match l with
    | [] => Err ErrEOL
    | Lst _ :: _ => Err ErrExpectedString
    | Str b :: rest =>
      match b with
      | [] => Err ErrExpectedString
      | b0 :: _ =>
        bind
          (if Byte.eqb b0 PrevoteCode then Ok KPrevote
           else if Byte.eqb b0 PrecommitCode then Ok KPrecommit
           else if Byte.eqb b0 LightProposalCode then Ok KLightProposal
           else Err errUnexpectedCode)
          (λ k,
             match rest with
             | [] => Err ErrEOL
             | x :: rest' =>
               match decodeBody k x with
               | None => Err ErrMessage
               | Some p =>
                 match rest' with
                 | [] => Ok {| msgKind := k; msgBody := p |}
                 | _ :: _ => Err ErrNotAtEOL
                 end
               end
             end)
      end
    end
  end.

(** Proof: the accountability event type and the rule are uint8; the
    message and the evidences are values of the interface. *)
Record Proof := mkProof {
  Type_ : byte;
  Rule : byte;
  Message_ : MessageValue;
  Evidences : list MessageValue
}.

(** Proof.EncodeRLP fills an encodedProof with [typedMessage{p.Message}]
    and [typedMessage{m}] for each evidence and writes it: the struct goes
    out as the list of its four fields, the evidences as a list. The
    typedMessage fields of the struct have an address, so that their
    EncodeRLP is called. *)
Definition Proof_EncodeRLP (p : Proof) : result item :=
  bind (typedMessage_EncodeRLP (Message_ p)) (λ msg,
  bind (mapM typedMessage_EncodeRLP (Evidences p)) (λ evs,
  Ok (Lst [encUint8 (Type_ p); encUint8 (Rule p); msg; Lst evs]))).

(** Proof.DecodeRLP reads an encodedProof, field after field, and copies
    the fields; a struct is read from a list of exactly its fields.
    [p.Message = encoded.Message] and [p.Evidences[i] =
    encoded.Evidences[i]] store the typedMessage values themselves. *)
Definition Proof_DecodeRLP (stream : item) : result Proof :=
  match stream with
  | Str _ => Err ErrExpectedList
  | Lst [] => Err ErrElems
  | Lst (ty :: l) =>
    bind (decUint8 ty) (λ ty',
    match l with
    | [] => Err ErrElems
    | ru :: l =>
      bind (decUint8 ru) (λ ru',
      match l with
      | [] => Err ErrElems
      | msg :: l =>
        bind (typedMessage_DecodeRLP msg) (λ msg',
        match l with
        | [] => Err ErrElems
        | evs :: l =>
          bind
            (match evs with
             | Lst evs => mapM typedMessage_DecodeRLP evs
             | Str _ => Err ErrExpectedList
             end)
            (λ evs',
             match l with
             | [] => Ok {| Type_ := ty'; Rule := ru';
                           Message_ := TypedMessage (Pointer msg');
                           Evidences :=
                             map (λ m, TypedMessage (Pointer m)) evs' |}
             | _ :: _ => Err ErrElems
             end)
        end)
      end)
    end)
  end.

(** The kinds the evidence codec accepts. *)
Definition accepted (v : MessageValue) : Prop :=
  msgKind (embedded v) = KPrevote ∨ msgKind (embedded v) = KPrecommit
  ∨ msgKind (embedded v) = KLightProposal.

(** A value of the interface that is a pointer to a message. *)
Definition is_pointer (v : MessageValue) : Prop :=
  match v with
  | Pointer _ => True
  | TypedMessage _ => False
  end.

End Codec.

Arguments mkMessage {body} _ _.
Arguments msgKind {body} _.
Arguments msgBody {body} _.
Arguments Code {body} _.
Arguments Pointer {body} _.
Arguments TypedMessage {body} _.
Arguments embedded {body} _.
Arguments is_pointer {body} _.
Arguments mkProof {body} _ _ _ _.
Arguments Type_ {body} _.
Arguments Rule {body} _.
Arguments Message_ {body} _.
Arguments Evidences {body} _.
Arguments accepted {body} _.
Arguments typedMessage_EncodeRLP {body} _ _.
Arguments typedMessage_DecodeRLP {body} _ _.
Arguments Proof_EncodeRLP {body} _ _.
Arguments Proof_DecodeRLP {body} _ _.

(** *** A content codec and a Proof to run the codec on *)

(** The content of a message is its bytes. *)
Definition bytesEncode (_ : kind) (b : list byte) : item := Str b.

Definition bytesDecode (_ : kind) (i : item) : option (list byte) :=
  match i with
  | Str b => Some b
  | Lst _ => None
  end.

Definition proofPN : Proof (list byte) :=
  {| Type_ := Byte.x00; Rule := Byte.x02;
     Message_ := Pointer (mkMessage KPrecommit [Byte.x0a; Byte.x01]);
     Evidences := [Pointer (mkMessage KPrevote [Byte.x0a]);
                   Pointer (mkMessage KLightProposal [Byte.x0b]);
                   Pointer (mkMessage KPrevote [Byte.x0c])] |}.

(** What Proof.DecodeRLP returns for the wire form of [proofPN]. *)
Definition proofPN_decoded : Proof (list byte) :=
  {| Type_ := Byte.x00; Rule := Byte.x02;
     Message_ := TypedMessage (Message_ proofPN);
     Evidences := map TypedMessage (Evidences proofPN) |}.

(** A wire typed message whose code is none of the three that the codec
    accepts, and a wire prevote. *)
Definition wireProposalEvidence : item := Lst [Str [Byte.x04]; Str []].

Definition wirePrevote : item := Lst [Str [Byte.x01]; Str [Byte.x0a]].

(** The wire form of [proofPN]. *)
Definition wireProofPN : item :=
  Lst [Str []; Str [Byte.x02];
       Lst [Str [Byte.x02]; Str [Byte.x0a; Byte.x01]];
       Lst [Lst [Str [Byte.x01]; Str [Byte.x0a]];
            Lst [Str [Byte.x03]; Str [Byte.x0b]];
            Lst [Str [Byte.x01]; Str [Byte.x0c]]]].

End Accountability.

(** ** The core: message handling and the upon-rules *)

Module Core.

Local Open Scope Z_scope.

Inductive Step := propose | prevote | precommit.

(** Step is an integer type in Go; [s >= prevote] compares the ranks. *)
Definition Step_rank (s : Step) : Z :=
  match s with
  | propose => 0
  | prevote => 1
  | precommit => 2
  end.

Definition Step_eqb (a b : Step) : bool := Step_rank a =? Step_rank b.

(** Modelled from the spec: "Codes: 0=proposal, 1=prevote, 2=precommit";
    the constants are declared outside the sources. *)
Definition msgProposal : Z := 0.
(** Modelled from the spec: "1=prevote". *)
Definition msgPrevote : Z := 1.
(** Modelled from the spec: "2=precommit". *)
Definition msgPrecommit : Z := 2.

(** consensusMessageType is a uint8; the conversion keeps the low byte. *)
Definition consensusMessageType (x : Z) : Z := x mod 256.

(** [func (cmt consensusMessageType) in(types ...uint64) bool] *)
Definition in_ (cmt : Z) (types : list Z) : bool :=
  existsb (λ t, cmt =? consensusMessageType t) types.

Record consensusMessage := mkConsensusMessage {
  cm_msgType : Z;                  (* consensusMessageType *)
  cm_height : Z;                   (* uint64 *)
  cm_round : Z;                    (* int64 *)
  cm_value : common_Hash;
  cm_validRound : Z                (* int64 *)
}.

(** What [matchingProposal] returns, as far as the rules read it. *)
Record proposalSummary := mkProposalSummary {
  p_round : Z;
  p_value : common_Hash;
  p_validRound : Z
}.

Record Message := mkMessage {
  Code : Z;                        (* uint64 *)
  Msg : list byte;
  Address : common_Address;
  CommittedSeal : list byte;
  Signature : list byte;
  Hash : common_Hash
}.

Inductive error :=
| errFailedDecodeProposal
| errFailedDecodePrevote
| errFailedDecodePrecommit
| errNotFromProposer
| errUnrecognisedCode (code : Z)
| errNonCommitteeMember
| errAddressMismatch
| errCollaborator (n : N).         (* an error returned by a callee *)

Definition voteForNil : bool := true.
Definition voteForValue : bool := false.
Definition nilValue : common_Hash := 0%N.

Inductive timeoutTimer := proposeTimeout | prevoteTimeout | precommitTimeout.

(** The functions a timer is given to run at expiry. *)
Inductive timeoutCallback :=
| onTimeoutPropose
| onTimeoutPrevote
| onTimeoutPrecommit.

(** The methods that checkUponConditions and handleMsg call and whose
    bodies are not among the sources are recorded, in the order of the
    calls, with their arguments. *)
Inductive Call :=
| CallDecodeBytes (payload : list byte)
| CallSendPrevote (isNil : bool)
| CallSendPrecommit (isNil : bool)
| CallScheduleTimeout (t : timeoutTimer) (d r h : Z) (f : timeoutCallback)
| CallCommit (b : Block) (r : Z)
| CallVerifyProposal (b : Block)
| CallStartRound (r : Z).

(** A run of a handler ends normally or in a nil dereference. *)
Inductive outcome (A : Type) :=
| Done (a : A)
| Panic.
Arguments Done {A} a.
Arguments Panic {A}.

#[export] Instance outcome_ret : MRet outcome := λ A a, Done a.
#[export] Instance outcome_bind : MBind outcome :=
  λ A B f x, match x with Done a => f a | Panic => Panic end.

(** [b.Hash()] and [b.Number()] read through the pointer. *)
Definition Block_Hash (b : option Block) : outcome common_Hash :=
  match b with
  | Some b => Done (BlockHash b)
  | None => Panic
  end.

(** The message cache is not among the sources; these are the methods the
    handlers call on it. *)
Class MsgCacheOps (Header MC : Type) := {
  msgCache_Message : MC → common_Hash → option Message;
  addMessage : MC → Message → consensusMessage → error + MC;
  addValue : MC → common_Hash → option Block → MC;
  setValid : MC → common_Hash → MC;
  isValid : MC → common_Hash → bool;
  matchingProposal : MC → consensusMessage → option proposalSummary;
  prevoteQuorum : MC → option common_Hash → Z → Header → bool;
  precommitQuorum : MC → option common_Hash → Z → Header → bool;
  value : MC → common_Hash → option Block;
  fail_ : MC → Z → Header → bool
}.

(** The other callees of the handlers that are not among the sources. *)
Class Collaborators (Header : Type) := {
  Keccak256 : list byte → common_Hash;
  rlp_DecodeBytes : list byte → error + Message;
  Decode_Proposal : Message → option Codec.Proposal;
  Decode_Vote : Message → option Codec.Vote;
  verifyCommittedSeal :
    common_Address → list byte → common_Hash → Z → Z → option error;
  CommitteeMember : Header → common_Address → bool;
  PayloadNoSig : Message → error + list byte;
  CheckValidatorSignature :
    Header → list byte → list byte → error + common_Address;
  isProposerMsg : Header → Z → Z → common_Address → bool
}.

(** Modelled from the spec: "timeout_step(R) = base_step + R × delta_step",
    with base_prevote = base_precommit = 1 s and delta = 0.5 s; in
    milliseconds. *)
Definition timeoutPrevote (r : Z) : Z := 1000 + r * 500.
(** Modelled from the spec: the same formula, for the precommit step. *)
Definition timeoutPrecommit (r : Z) : Z := 1000 + r * 500.

(** [big.Int.Uint64()]: the low 64 bits of the absolute value. *)
Definition Uint64 (x : Z) : Z := Z.abs x mod 2 ^ 64.

Definition isStartRound (k : Call) : bool :=
  match k with CallStartRound _ => true | _ => false end.

Definition isVerifyProposal (k : Call) : bool :=
  match k with CallVerifyProposal _ => true | _ => false end.

(** TimeoutEvent: the event loop reads [timeoutE.step]; the round and the
    height are the (H,R) of the spec's "TimeoutEvent{step, H, R}". *)
Record TimeoutEvent := mkTimeoutEvent {
  roundWhenCalled : Z;
  heightWhenCalled : Z;
  te_step : Z
}.

Section Handlers.

Context {Header MC : Type}.
Context `{!MsgCacheOps Header MC} `{!Collaborators Header}.

Record core := mkCore {
  height : Z;
  round : Z;
  step : Step;
  lockedValue : option Block;
  lockedRound : Z;
  validValue : option Block;
  validRound : Z;
  line34Executed : bool;
  line36Executed : bool;
  line47Executed : bool;
  lastHeader : Header;
  msgCache : MC;
  calls : list Call
}.

Definition record (k : Call) (c : core) : core :=
  mkCore (height c) (round c) (step c) (lockedValue c) (lockedRound c)
    (validValue c) (validRound c) (line34Executed c) (line36Executed c)
    (line47Executed c) (lastHeader c) (msgCache c) (calls c ++ [k]).

Definition set_step (s : Step) (c : core) : core :=
  mkCore (height c) (round c) s (lockedValue c) (lockedRound c)
    (validValue c) (validRound c) (line34Executed c) (line36Executed c)
    (line47Executed c) (lastHeader c) (msgCache c) (calls c).

Definition set_round (r : Z) (c : core) : core :=
  mkCore (height c) r (step c) (lockedValue c) (lockedRound c)
    (validValue c) (validRound c) (line34Executed c) (line36Executed c)
    (line47Executed c) (lastHeader c) (msgCache c) (calls c).

Definition set_locked (v : option Block) (r : Z) (c : core) : core :=
  mkCore (height c) (round c) (step c) v r
    (validValue c) (validRound c) (line34Executed c) (line36Executed c)
    (line47Executed c) (lastHeader c) (msgCache c) (calls c).

Definition set_valid (v : option Block) (r : Z) (c : core) : core :=
  mkCore (height c) (round c) (step c) (lockedValue c) (lockedRound c)
    v r (line34Executed c) (line36Executed c)
    (line47Executed c) (lastHeader c) (msgCache c) (calls c).

Definition set_msgCache (mc : MC) (c : core) : core :=
  mkCore (height c) (round c) (step c) (lockedValue c) (lockedRound c)
    (validValue c) (validRound c) (line34Executed c) (line36Executed c)
    (line47Executed c) (lastHeader c) mc (calls c).

(** setHeight is not among the sources: it is the setter of the height
    that [c.Height()] returns. *)
Definition setHeight (h : Z) (c : core) : core :=
  mkCore h (round c) (step c) (lockedValue c) (lockedRound c)
    (validValue c) (validRound c) (line34Executed c) (line36Executed c)
    (line47Executed c) (lastHeader c) (msgCache c) (calls c).

Definition sendPrevote (isNil : bool) (c : core) : core :=
  record (CallSendPrevote isNil) c.

Definition sendPrecommit (isNil : bool) (c : core) : core :=
  record (CallSendPrecommit isNil) c.

Definition scheduleTimeout (t : timeoutTimer) (d r h : Z) (f : timeoutCallback)
    (c : core) : core :=
  record (CallScheduleTimeout t d r h f) c.

Definition commit (b : Block) (r : Z) (c : core) : core :=
  record (CallCommit b r) c.

(** Line 22. In Go, [&&] binds tighter than [||], and [||] evaluates its
    right operand only when the left one is false. *)
Definition upon22 (cm : consensusMessage) (r t : Z) (c : core) : bool :=
  in_ t [msgProposal] && (cm_round cm =? r) && (cm_validRound cm =? -1)
  && Step_eqb (step c) propose.

Definition line22 (cm : consensusMessage) (r t : Z) (c : core) : outcome core :=
  if upon22 cm r t c then
    vote ← (if isValid (msgCache c) (cm_value cm) && (lockedRound c =? -1)
            then Done true
            else hash ← Block_Hash (lockedValue c);
                 Done (hash =? cm_value cm)%N);
    if vote : bool then Done (sendPrevote voteForValue c)
    else Done (sendPrevote voteForNil c)
  else Done c.

(** Line 28. *)
Definition upon28 (p : proposalSummary) (r t : Z) (lh : Header) (s : Step)
    (c : core) : bool :=
  in_ t [msgProposal; msgPrevote] && (p_round p =? r)
  && prevoteQuorum (msgCache c) (Some (p_value p)) (p_validRound p) lh
  && Step_eqb s propose
  && ((p_validRound p >=? 0) && (p_validRound p <? r)).

Definition line28 (p : option proposalSummary) (r t : Z) (lh : Header)
    (s : Step) (c : core) : outcome core :=
  match p with
  | Some p =>
    if upon28 p r t lh s c then
      vote ← (if isValid (msgCache c) (p_value p)
              then if lockedRound c <=? p_validRound p then Done true
                   else hash ← Block_Hash (lockedValue c);
                        Done (hash =? p_value p)%N
              else Done false);
      if vote : bool then Done (sendPrevote voteForValue c)
      else Done (sendPrevote voteForNil c)
    else Done c
  | None => Done c
  end.

(** Line 34: the prevote timer is given [c.onTimeoutPrecommit]. *)
Definition line34 (cm : consensusMessage) (r h t : Z) (lh : Header)
    (s : Step) (c : core) : core :=
  if in_ t [msgPrevote] && (cm_round cm =? r)
     && prevoteQuorum (msgCache c) None r lh
     && Step_eqb s prevote && negb (line34Executed c)
  then scheduleTimeout prevoteTimeout (timeoutPrevote r) r h onTimeoutPrecommit c
  else c.

(** Line 36: the local [s] and [c.step] are written together. *)
Definition line36 (p : option proposalSummary) (r t : Z) (lh : Header)
    (s : Step) (c : core) : core * Step :=
  match p with
  | Some p =>
    if in_ t [msgProposal; msgPrevote] && (p_round p =? r)
       && prevoteQuorum (msgCache c) (Some (p_value p)) r lh
       && isValid (msgCache c) (p_value p)
       && (Step_rank s >=? Step_rank prevote) && negb (line36Executed c)
    then
      let block := value (msgCache c) (p_value p) in
      let '(c, s) :=
        if Step_eqb s prevote then
          let c := set_locked block r c in
          let c := sendPrecommit voteForValue c in
          (set_step precommit c, precommit)
        else (c, s) in
      (set_valid block r c, s)
    else (c, s)
  | None => (c, s)
  end.

(** Line 44. *)
Definition line44 (cm : consensusMessage) (r t : Z) (lh : Header)
    (s : Step) (c : core) : core * Step :=
  if in_ t [msgPrevote] && (cm_round cm =? r)
     && prevoteQuorum (msgCache c) (Some nilValue) r lh
     && Step_eqb s prevote
  then (set_step precommit (sendPrecommit voteForValue c), precommit)
  else (c, s).

(** Line 47. *)
Definition line47 (cm : consensusMessage) (r h t : Z) (lh : Header)
    (c : core) : core :=
  if in_ t [msgPrecommit] && (cm_round cm =? r)
     && precommitQuorum (msgCache c) None r lh
     && negb (line47Executed c)
  then scheduleTimeout precommitTimeout (timeoutPrecommit r) r h
         onTimeoutPrecommit c
  else c.

(** Line 49: nothing follows the reset of the locked and valid state; the
    block comes from the cache and is dereferenced by [block.Number()]. *)
Definition line49 (p : option proposalSummary) (t : Z) (lh : Header)
    (c : core) : outcome core :=
  match p with
  | Some p =>
    if in_ t [msgProposal; msgPrecommit]
       && precommitQuorum (msgCache c) (Some (p_value p)) (p_round p) lh
    then
      if isValid (msgCache c) (p_value p) then
        match value (msgCache c) (p_value p) with
        | Some block =>
          let c := commit block (p_round p) c in
          let c := setHeight (Number block + 1) c in
          let c := set_locked None (-1) c in
          Done (set_valid None (-1) c)
        | None => Panic
        end
      else Done c
    else Done c
  | None => Done c
  end.

(** Line 55: the body of the branch is a comment. *)
Definition line55 (cm : consensusMessage) (r : Z) (lh : Header) (c : core)
    : core :=
  if (cm_round cm >? r) && fail_ (msgCache c) (cm_round cm) lh then c else c.

Definition checkUponConditions (c : core) (cm : consensusMessage)
    : outcome core :=
  let r := round c in
  let h := height c in
  let lh := lastHeader c in
  let s := step c in
  let t := cm_msgType cm in
  let p := matchingProposal (msgCache c) cm in
  c ← line22 cm r t c;
  c ← line28 p r t lh s c;
  let c := line34 cm r h t lh s c in
  let '(c, s) := line36 p r t lh s c in
  let '(c, s) := line44 cm r t lh s c in
  let c := line47 cm r h t lh c in
  c ← line49 p t lh c;
  Done (line55 cm r lh c).

(** handleCurrentHeightMessage. In the proposal case the statements that
    follow [return errNotFromProposer] inside the same block (the call of
    VerifyProposal and of setValid on the value) are never reached. *)
Definition handleCurrentHeightMessage (c : core) (m : Message)
    (cm : consensusMessage) : outcome (core * option error) :=
  if negb (CommitteeMember (lastHeader c) (Address m)) then
    Done (c, Some errNonCommitteeMember)
  else
    match PayloadNoSig m with
    | inl err => Done (c, Some err)
    | inr payload =>
      match CheckValidatorSignature (lastHeader c) payload (Signature m) with
      | inl err => Done (c, Some err)
      | inr address =>
        if negb (address =? Address m)%N then
          Done (c, Some errAddressMismatch)
        else
          let after_switch : core + error :=
            if Code m =? msgProposal then
              if negb (isProposerMsg (lastHeader c) (height c) (cm_round cm)
                         (Address m))
              then inr errNotFromProposer
              else inl c
            else inl (set_msgCache (setValid (msgCache c) (Hash m)) c) in
          match after_switch with
          | inr err => Done (c, Some err)
          | inl c =>
            c ← checkUponConditions c cm;
            Done (c, None)
          end
      end
    end.

Definition set_Hash (hash : common_Hash) (m : Message) : Message :=
  mkMessage (Code m) (Msg m) (Address m) (CommittedSeal m) (Signature m) hash.

(** handleMsg. *)
Definition handleMsg (c : core) (payload : list byte)
    : outcome (core * option error) :=
  let hash := Keccak256 payload in
  match msgCache_Message (msgCache c) hash with
  | Some _ => Done (c, None)
  | None =>
    let c := record (CallDecodeBytes payload) c in
    match rlp_DecodeBytes payload with
    | inl err => Done (c, Some err)
    | inr m =>
      let m := set_Hash hash m in
      let add (conMsg : consensusMessage) (k : core → outcome (core * option error))
          : outcome (core * option error) :=
        match addMessage (msgCache c) m conMsg with
        | inl err => Done (c, Some err)
        | inr mc => k (set_msgCache mc c)
        end in
      let dispatch (conMsg : consensusMessage) (c : core)
          : outcome (core * option error) :=
        if negb (cm_height conMsg =? Uint64 (height c)) then Done (c, None)
        else handleCurrentHeightMessage c m conMsg in
      if Code m =? msgProposal then
        match Decode_Proposal m with
        | None => Done (c, Some errFailedDecodeProposal)
        | Some proposal =>
          valueHash ← Block_Hash (Codec.ProposalBlock proposal);
          let conMsg :=
            {| cm_msgType := consensusMessageType (Code m);
               cm_height := Uint64 (Codec.Height proposal);
               cm_round := Codec.Round proposal;
               cm_value := valueHash;
               cm_validRound := Codec.ValidRound proposal |} in
          add conMsg (λ c,
            let c := set_msgCache
                       (addValue (msgCache c) valueHash
                          (Codec.ProposalBlock proposal)) c in
            dispatch conMsg c)
        end
      else if Code m =? msgPrevote then
        match Decode_Vote m with
        | None => Done (c, Some errFailedDecodePrevote)
        | Some preVote =>
          let conMsg :=
            {| cm_msgType := consensusMessageType (Code m);
               cm_height := Uint64 (Codec.vHeight preVote);
               cm_round := Codec.vRound preVote;
               cm_value := Codec.ProposedBlockHash preVote;
               cm_validRound := 0 |} in
          add conMsg (dispatch conMsg)
        end
      else if Code m =? msgPrecommit then
        match Decode_Vote m with
        | None => Done (c, Some errFailedDecodePrecommit)
        | Some preCommit =>
          match verifyCommittedSeal (Address m) (CommittedSeal m)
                  (Codec.ProposedBlockHash preCommit) (Codec.vRound preCommit)
                  (Codec.vHeight preCommit) with
          | Some err => Done (c, Some err)
          | None =>
            let conMsg :=
              {| cm_msgType := consensusMessageType (Code m);
                 cm_height := Uint64 (Codec.vHeight preCommit);
                 cm_round := Codec.vRound preCommit;
                 cm_value := Codec.ProposedBlockHash preCommit;
                 cm_validRound := 0 |} in
            add conMsg (dispatch conMsg)
          end
        end
      else Done (c, Some (errUnrecognisedCode (Code m)))
    end
  end.

(** Modelled from the spec: startRound is not among the sources. "sets
    round ← r, step ← propose, cancels live timers", then proposes or
    schedules the propose timeout; the call is recorded and the round and
    the step are written. *)
Definition startRound (r : Z) (c : core) : core :=
  set_step propose (set_round r (record (CallStartRound r) c)).

(** Modelled from the spec: the callbacks of the timers are not among the
    sources. "Expiry posts a TimeoutEvent{step, H, R} onto the main event
    channel", each callback with the step of its name. *)
Definition runCallback (f : timeoutCallback) (r h : Z) : TimeoutEvent :=
  match f with
  | onTimeoutPropose => mkTimeoutEvent r h msgProposal
  | onTimeoutPrevote => mkTimeoutEvent r h msgPrevote
  | onTimeoutPrecommit => mkTimeoutEvent r h msgPrecommit
  end.

(** Modelled from the spec: "current (H,R)" against the event's. *)
Definition sameView (timeoutE : TimeoutEvent) (c : core) : bool :=
  (heightWhenCalled timeoutE =? height c) && (roundWhenCalled timeoutE =? round c).

(** Modelled from the spec: the three timeout handlers are not among the
    sources. "the handler ignores the event if current (H,R) no longer
    matches"; "propose timeout at (H,r) → prevote NIL, step ← prevote". *)
Definition handleTimeoutPropose (c : core) (timeoutE : TimeoutEvent) : core :=
  if sameView timeoutE c then set_step prevote (sendPrevote voteForNil c) else c.

(** Modelled from the spec: "prevote timeout at (H,r) → precommit NIL,
    step ← precommit", ignored in another view. *)
Definition handleTimeoutPrevote (c : core) (timeoutE : TimeoutEvent) : core :=
  if sameView timeoutE c then set_step precommit (sendPrecommit voteForNil c)
  else c.

(** Modelled from the spec: "precommit timeout at (H,r) →
    start_round(r+1)", ignored in another view. *)
Definition handleTimeoutPrecommit (c : core) (timeoutE : TimeoutEvent) : core :=
  if sameView timeoutE c then startRound (round c + 1) c else c.

(** mainEventLoop, the case of [c.timeoutEventSub.Chan()]: the switch on
    [timeoutE.step]. *)
Definition mainEventLoop_timeout (c : core) (timeoutE : TimeoutEvent) : core :=
  if te_step timeoutE =? msgProposal then handleTimeoutPropose c timeoutE
  else if te_step timeoutE =? msgPrevote then handleTimeoutPrevote c timeoutE
  else if te_step timeoutE =? msgPrecommit then handleTimeoutPrecommit c timeoutE
  else c.

(** The expiry of the timer that a recorded call scheduled: its callback
    runs and the event loop takes the event. *)
Definition expire (k : Call) (c : core) : core :=
  match k with
  | CallScheduleTimeout _ _ r h f => mainEventLoop_timeout c (runCallback f r h)
  | _ => c
  end.

(** *** Predicates used to state what the handlers do *)

(** The decision of rule L22 in the words of the specification: prevote
    for the value if "valid(value) ∧ (locked_round=−1 ∨
    locked_value=value)", else prevote NIL. *)
Definition spec_L22_prevote_for_value (c : core) (cm : consensusMessage)
    : bool :=
  isValid (msgCache c) (cm_value cm)
  && ((lockedRound c =? -1)
      || match lockedValue c with
         | Some b => (BlockHash b =? cm_value cm)%N
         | None => false
         end).

(** Lines 22 and 28 read [c.lockedValue.Hash()] in these cases; with a nil
    locked value the read is a nil dereference. *)
Definition line22_reads_lock (c : core) (cm : consensusMessage) : bool :=
  upon22 cm (round c) (cm_msgType cm) c
  && negb (isValid (msgCache c) (cm_value cm) && (lockedRound c =? -1)).

Definition line28_reads_lock (c : core) (cm : consensusMessage) : bool :=
  match matchingProposal (msgCache c) cm with
  | Some p =>
    upon28 p (round c) (cm_msgType cm) (lastHeader c) (step c) c
    && isValid (msgCache c) (p_value p)
    && negb (lockedRound c <=? p_validRound p)
  | None => false
  end.

Definition derefs_nil_lock (c : core) (cm : consensusMessage) : bool :=
  match lockedValue c with
  | Some _ => false
  | None => line22_reads_lock c cm || line28_reads_lock c cm
  end.

(** The calls that neither start a round nor verify a proposal. *)
Definition quiet (k : Call) : Prop :=
  isStartRound k = false ∧ isVerifyProposal k = false.

(** The calls made so far stay, and calls that satisfy [P] may follow. *)
Definition adds (P : Call → Prop) (c c' : core) : Prop :=
  ∃ l, calls c' = calls c ++ l ∧ Forall P l.

(** What every line of checkUponConditions leaves as it is: the cache, the
    header and the round; the calls made so far stay, and quiet ones may
    follow. *)
Record frame (c c' : core) : Prop := mkFrame {
  frame_msgCache : msgCache c' = msgCache c;
  frame_lastHeader : lastHeader c' = lastHeader c;
  frame_round : round c' = round c;
  frame_calls : ∃ l, calls c' = calls c ++ l ∧ Forall quiet l
}.

End Handlers.

Arguments core : clear implicits.

(** *** A small cache and committee to run the handlers on *)

(** The quorums are given as tables of (value, round); a stored proposal
    matches a message of the same round and value. *)
Record tableCache := mkTableCache {
  tc_messages : list (common_Hash * Message);
  tc_values : list (common_Hash * Block);
  tc_valid : list common_Hash;
  tc_proposals : list proposalSummary;
  tc_prevoteQuorums : list (option common_Hash * Z);
  tc_precommitQuorums : list (option common_Hash * Z)
}.

Definition opt_hash_eqb (a b : option common_Hash) : bool :=
  match a, b with
  | Some x, Some y => (x =? y)%N
  | None, None => true
  | _, _ => false
  end.

Definition in_table (v : option common_Hash) (r : Z)
    (l : list (option common_Hash * Z)) : bool :=
  existsb (λ e, opt_hash_eqb (fst e) v && (snd e =? r)) l.

Fixpoint assoc {A : Type} (k : common_Hash) (l : list (common_Hash * A))
    : option A :=
  match l with
  | [] => None
  | (k', a) :: l' => if (k' =? k)%N then Some a else assoc k l'
  end.

#[export] Instance tableCacheOps : MsgCacheOps unit tableCache := {|
  msgCache_Message mc h := assoc h (tc_messages mc);
  addMessage mc m cm :=
    inr (mkTableCache ((Hash m, m) :: tc_messages mc) (tc_values mc)
           (tc_valid mc)
           (if cm_msgType cm =? msgProposal
            then mkProposalSummary (cm_round cm) (cm_value cm)
                   (cm_validRound cm) :: tc_proposals mc
            else tc_proposals mc)
           (tc_prevoteQuorums mc) (tc_precommitQuorums mc));
  addValue mc h b :=
    match b with
    | Some b =>
      mkTableCache (tc_messages mc) ((h, b) :: tc_values mc) (tc_valid mc)
        (tc_proposals mc) (tc_prevoteQuorums mc) (tc_precommitQuorums mc)
    | None => mc
    end;
  setValid mc h :=
    mkTableCache (tc_messages mc) (tc_values mc) (h :: tc_valid mc)
      (tc_proposals mc) (tc_prevoteQuorums mc) (tc_precommitQuorums mc);
  isValid mc h := existsb (N.eqb h) (tc_valid mc);
  matchingProposal mc cm :=
    find (λ p, (p_round p =? cm_round cm) && (p_value p =? cm_value cm)%N)
      (tc_proposals mc);
  prevoteQuorum mc v r _ := in_table v r (tc_prevoteQuorums mc);
  precommitQuorum mc v r _ := in_table v r (tc_precommitQuorums mc);
  value mc h := assoc h (tc_values mc);
  fail_ _ _ _ := false
|}.

(** Every sender is a committee member and the proposer of its round; a
    signature recovers address 1; the hash of a payload is the payload read
    as a big-endian number; a payload decodes to a message whose code is
    its first byte; a proposal carries [block7] and a vote its hash. *)
Definition bytes_to_N (payload : list byte) : N :=
  fold_left (λ acc b, (acc * 256 + Byte.to_N b)%N) payload 0%N.

#[export] Instance openCollaborators : Collaborators unit := {|
  Keccak256 payload := bytes_to_N payload;
  rlp_DecodeBytes payload :=
    match payload with
    | [] => inl (errCollaborator 0)
    | b :: _ => inr (mkMessage (Z.of_N (Byte.to_N b)) payload 1%N [] [] 0%N)
    end;
  Decode_Proposal _ := Some (Codec.mkProposal 0 10 (-1) (Some block7));
  Decode_Vote _ := Some (Codec.mkVote 0 10 7%N);
  verifyCommittedSeal _ _ _ _ _ := None;
  CommitteeMember _ _ := true;
  PayloadNoSig m := inr (Msg m);
  CheckValidatorSignature _ _ _ := inr 1%N;
  isProposerMsg _ _ _ _ := true
|}.

(** *** Further predicates on calls and states *)

(** The five calls that the lines of checkUponConditions make, for the
    round [r] and the height [h] read at its start: a prevote, a precommit
    with [voteForValue], the prevote timer and the precommit timer, both
    with [c.onTimeoutPrecommit], and a commit. *)
Definition upon_call (r h : Z) (k : Call) : Prop :=
  (∃ isNil, k = CallSendPrevote isNil)
  ∨ k = CallSendPrecommit voteForValue
  ∨ k = CallScheduleTimeout prevoteTimeout (timeoutPrevote r) r h
          onTimeoutPrecommit
  ∨ k = CallScheduleTimeout precommitTimeout (timeoutPrecommit r) r h
          onTimeoutPrecommit
  ∨ (∃ b pr, k = CallCommit b pr).

Definition isSendPrecommit (k : Call) : bool :=
  match k with CallSendPrecommit _ => true | _ => false end.

Section MoreHandlers.

Context {Header MC : Type}.
Context `{!MsgCacheOps Header MC} `{!Collaborators Header}.

(** The three latches of a core. *)
Definition latches (c : core Header MC) : bool * bool * bool :=
  (line34Executed c, line36Executed c, line47Executed c).

(** The view variables of a core. *)
Definition roundState (c : core Header MC)
    : Z * Z * Step * option Block * Z * option Block * Z :=
  (height c, round c, step c, lockedValue c, lockedRound c, validValue c,
   validRound c).

(** Line 49 reads [block.Number()] on the block that the cache holds for
    the value; when the cache holds none for a valid value with a
    precommit quorum, the read is a nil dereference. *)
Definition line49_reads_nil_block (c : core Header MC)
    (cm : consensusMessage) : bool :=
  match matchingProposal (msgCache c) cm with
  | Some p =>
    in_ (cm_msgType cm) [msgProposal; msgPrecommit]
    && precommitQuorum (msgCache c) (Some (p_value p)) (p_round p)
         (lastHeader c)
    && isValid (msgCache c) (p_value p)
    && match value (msgCache c) (p_value p) with
       | Some _ => false
       | None => true
       end
  | None => false
  end.

(** mainEventLoop, the case of [c.messageEventSub.Chan()] for a
    MessageEvent: the payload is gossiped when handleMsg returns nil, and
    otherwise the loop continues. The result says whether
    [c.backend.Gossip] was called. *)
Definition mainEventLoop_message (c : core Header MC) (payload : list byte)
    : outcome (core Header MC * bool) :=
  r ← handleMsg c payload;
  match r.2 with
  | Some _ => Done (r.1, false)
  | None => Done (r.1, true)
  end.

End MoreHandlers.

(** A prevote for value 7 arriving in round 1 of height 10, step prevote,
    while the cache holds the proposal of the round, its block, and a
    prevote quorum for the value. *)
Definition cache36 : tableCache :=
  mkTableCache [] [(7%N, block7)] [7%N] [mkProposalSummary 1 7%N (-1)]
    [(Some 7%N, 1)] [].

Definition core36 : core unit tableCache :=
  mkCore 10 1 prevote None (-1) None (-1) false false false tt cache36 [].

Definition prevote36 : consensusMessage :=
  mkConsensusMessage msgPrevote 10 1 7%N 0.

Definition core36_after : core unit tableCache :=
  mkCore 10 1 precommit (Some block7) 1 (Some block7) 1 false false false
    tt cache36 [CallSendPrecommit voteForValue].

(** The prevote as a message, with hash 99. *)
Definition message36 : Message :=
  mkMessage msgPrevote [Byte.x01] 1%N [] [] 99%N.

Definition core36_handled : core unit tableCache :=
  mkCore 10 1 precommit (Some block7) 1 (Some block7) 1 false false false
    tt (setValid cache36 99%N) [CallSendPrecommit voteForValue].

(** A payload with the code of a prevote, not in the cache. *)
Definition payload_prevote : list byte := [Byte.x01; Byte.x09].

Definition core_fresh : core unit tableCache :=
  mkCore 10 0 propose None (-1) None (-1) false false false tt
    (mkTableCache [] [] [] [] [] []) [].

(** *** States and messages to run the handlers on *)

(** Round 1 of height 10, step propose, locked on [block7] since round 0;
    the value 7 is proposed with valid round -1 and is not marked valid. *)
Definition cache22 : tableCache :=
  mkTableCache [] [(7%N, block7)] [] [mkProposalSummary 1 7%N (-1)] [] [].

Definition core22 : core unit tableCache :=
  mkCore 10 1 propose (Some block7) 0 (Some block7) 0 false false false
    tt cache22 [].

Definition proposal22 : consensusMessage :=
  mkConsensusMessage msgProposal 10 1 7%N (-1).

(** The same proposal arriving with nothing locked. *)
Definition core22_unlocked : core unit tableCache :=
  mkCore 10 1 propose None (-1) None (-1) false false false tt cache22 [].

(** The same proposal arriving at a node locked on [block8]. *)
Definition core22_block8 : core unit tableCache :=
  mkCore 10 1 propose (Some block8) 0 (Some block8) 0 false false false
    tt cache22 [].

Definition message22 : Message :=
  mkMessage msgProposal [Byte.x00] 1%N [] [] 99%N.

(** Round 1 of height 10, step prevote; the cache holds a prevote quorum
    for round 1 (value unspecified) and a prevote for value 7 arrives. *)
Definition cache34 : tableCache :=
  mkTableCache [] [] [] [] [(None, 1)] [].

Definition core34 : core unit tableCache :=
  mkCore 10 1 prevote None (-1) None (-1) false false false tt cache34 [].

Definition prevote34 : consensusMessage :=
  mkConsensusMessage msgPrevote 10 1 7%N 0.

Definition scheduled34 : Call :=
  CallScheduleTimeout prevoteTimeout (timeoutPrevote 1) 1 10 onTimeoutPrecommit.

(** Round 1 of height 10, step precommit, locked on [block7]; the value 7
    is valid, its block is cached, and the cache holds a precommit quorum
    for it at round 1; a precommit for 7 arrives. *)
Definition cache49 : tableCache :=
  mkTableCache [] [(7%N, block7)] [7%N] [mkProposalSummary 1 7%N (-1)]
    [(Some 7%N, 1)] [(Some 7%N, 1)].

Definition core49 : core unit tableCache :=
  mkCore 10 1 precommit (Some block7) 1 (Some block7) 1 false true false
    tt cache49 [].

Definition precommit49 : consensusMessage :=
  mkConsensusMessage msgPrecommit 10 1 7%N 0.

Definition core49_after : core unit tableCache :=
  mkCore 11 1 precommit None (-1) None (-1) false true false
    tt cache49 [CallCommit block7 1].

(** A payload whose hash is in the cache already. *)
Definition payload10 : list byte := [Byte.x01; Byte.x02].

Definition cache10 : tableCache :=
  mkTableCache [(258%N, mkMessage 1 payload10 1%N [] [] 258%N)] [] [] [] [] [].

Definition core10 : core unit tableCache :=
  mkCore 10 0 propose None (-1) None (-1) false false false tt cache10 [].

(** The core after the delivery of [payload_prevote] to [core_fresh]: the
    decoding is recorded, the message is in the cache and marked valid. *)
Definition message_prevote : Message :=
  mkMessage 1 payload_prevote 1%N [] [] 265%N.

Definition core_fresh_after : core unit tableCache :=
  mkCore 10 0 propose None (-1) None (-1) false false false tt
    (mkTableCache [(265%N, message_prevote)] [] [265%N] [] [] [])
    [CallDecodeBytes payload_prevote].

(** As [openCollaborators], with an empty committee. *)
Definition closedCollaborators : Collaborators unit := {|
  Keccak256 payload := bytes_to_N payload;
  rlp_DecodeBytes payload :=
    match payload with
    | [] => inl (errCollaborator 0)
    | b :: _ => inr (mkMessage (Z.of_N (Byte.to_N b)) payload 1%N [] [] 0%N)
    end;
  Decode_Proposal _ := Some (Codec.mkProposal 0 10 (-1) (Some block7));
  Decode_Vote _ := Some (Codec.mkVote 0 10 7%N);
  verifyCommittedSeal _ _ _ _ _ := None;
  CommitteeMember _ _ := false;
  PayloadNoSig m := inr (Msg m);
  CheckValidatorSignature _ _ _ := inr 1%N;
  isProposerMsg _ _ _ _ := true
|}.

(** The core after the same delivery with the empty committee: the message
    is in the cache all the same. *)
Definition core_fresh_rejected : core unit tableCache :=
  mkCore 10 0 propose None (-1) None (-1) false false false tt
    (mkTableCache [(265%N, message_prevote)] [] [] [] [] [])
    [CallDecodeBytes payload_prevote].

End Core.

(** ** The transaction sender cacher *)

Module TxCacher.

(** A txSenderCacherRequest, as far as [cache] reads it: the slice
    [txs[i:]] of the batch, kept as its offset [i] in the batch, and the
    stride [inc]. Thread counts and lengths are Go ints far below 2^61, so
    that [tasks*4] and [len(txs)+3] do not wrap; they are natural
    numbers here. *)
Record txSenderCacherRequest := mkRequest {
  offset : nat;
  inc : nat
}.

(** The number of tasks that [recover] computes for a batch of [len]
    transactions. *)
Definition recover_tasks (threads len : nat) : nat :=
  if len <? threads * 4 then (len + 3) / 4 else threads.

(** What one iteration of the loop of [recover] meets. The load of
    [isClosed] answers 1; or it answers 0 and the request is sent; or it
    answers 0 and [Close], which sets [isClosed] and closes the channel,
    runs before the send is done: a send on a closed channel panics. *)
Inductive iteration := LoadClosed | Sent | SendOnClosed.

(** How a call of [recover] ends. *)
Inductive ending := Returned | Panicked.

(** The loop of [recover], over the indices [i] still to run: the load of
    [isClosed] is read before each send, and a closed cacher ends the
    loop. [env i] is what iteration [i] meets. The result is the requests
    sent on the channel, in order, and how the loop ends. *)
Fixpoint recover_loop (env : nat → iteration) (tasks : nat) (idxs : list nat)
    : list txSenderCacherRequest * ending :=
  match idxs with
  | [] => ([], Returned)
  | i :: idxs' =>
    match env i with
    | LoadClosed => ([], Returned)
    | SendOnClosed => ([], Panicked)
    | Sent =>
      let r := recover_loop env tasks idxs' in
      ({| offset := i; inc := tasks |} :: r.1, r.2)
    end
  end.

(** recover: the requests sent on the channel, in order, for a batch of
    [len] transactions, and how the call ends. *)
Definition recover (threads : nat) (env : nat → iteration) (len : nat)
    : list txSenderCacherRequest * ending :=
  if len =? 0 then ([], Returned)
  else
    let tasks := recover_tasks threads len in
    recover_loop env tasks (seq 0 tasks).

(** The inner loop of [cache] on one task,
    [for i := 0; i < len(task.txs); i += task.inc], as the list of the
    indices [i] of [task.txs] that it passes to [types.Sender]. With a
    stride of at least one the loop ends within [len(task.txs)] rounds,
    which is the fuel that [cache_task] gives it. *)
Fixpoint cache_loop (fuel i inc len : nat) : list nat :=
  match fuel with
  | O => []
  | S fuel' =>
    if i <? len then i :: cache_loop fuel' (i + inc) inc len else []
  end.

(** The transactions of the batch, by their index in the batch, whose
    sender one task recovers: [task.txs[i]] is the transaction
    [offset + i] of the batch. *)
Definition cache_task (len : nat) (task : txSenderCacherRequest) : list nat :=
  map (λ i, offset task + i)
    (cache_loop (len - offset task) 0 (inc task) (len - offset task)).

End TxCacher.

(** * Properties *)

(** ** The message store *)

Module MsgStoreProofs.
Import MsgStore.

(** Reading back the key that [Save] wrote. *)
Lemma stored_Save_same (ms : MsgStore) (m : Message) :
  stored (Save m ms) (H m) (Round m) (Code m) (Address m)
  = stored ms (H m) (Round m) (Code m) (Address m) ++ [m].
Proof.
  unfold stored, Save; simpl.
  repeat (rewrite lookup_insert_eq; simpl).
  by destruct (_ !! Address m).
Qed.

(** [Save] leaves the slices of all other keys alone. *)
Lemma stored_Save_other (ms : MsgStore) (m : Message) h r c a :
  (h, r, c, a) ≠ key m →
  stored (Save m ms) h r c a = stored ms h r c a.
Proof.
  intros Hne. unfold stored, Save, key in *; simpl.
  destruct (decide (H m = h)) as [E1|?]; [|by rewrite lookup_insert_ne].
  rewrite E1, lookup_insert_eq; simpl.
  destruct (decide (Round m = r)) as [E2|?]; [|by rewrite lookup_insert_ne].
  rewrite E2, lookup_insert_eq; simpl.
  destruct (decide (Code m = c)) as [E3|?]; [|by rewrite lookup_insert_ne].
  rewrite E3, lookup_insert_eq; simpl.
  destruct (decide (Address m = a)) as [E4|?]; [|by rewrite lookup_insert_ne].
  destruct Hne. by rewrite E1, E2, E3, E4.
Qed.

(** After [Save m], [Get] at the height of [m] returns [m] for every query
    that [m] satisfies. *)
Lemma Get_Save (ms : MsgStore) (m : Message) (query : Message → bool) :
  query m = true → m ∈ Get (H m) query (Save m ms).
Proof.
  intros Hq. unfold Get, Save; simpl. rewrite lookup_insert_eq.
  apply list_elem_of_bind. eexists (Round m, _). split;
    [|apply elem_of_map_to_list, lookup_insert_eq].
  apply list_elem_of_bind. eexists (Code m, _). split;
    [|apply elem_of_map_to_list, lookup_insert_eq].
  apply list_elem_of_bind. eexists (Address m, _). split;
    [|apply elem_of_map_to_list, lookup_insert_eq].
  apply list_elem_of_filter. split; [done|]. simpl.
  destruct (_ !! Address m); set_solver.
Qed.

(** [firstHeight] is written by the first [Save] only (more exactly, by
    every [Save] that finds it zero). *)
Lemma FirstHeightBuffered_Save (ms : MsgStore) (m : Message) :
  FirstHeightBuffered (Save m ms)
  = if (FirstHeightBuffered ms =? 0)%N then H m else FirstHeightBuffered ms.
Proof. reflexivity. Qed.

Example Save_m5_twice :
  stored (Save m5 (Save m5 NewMsgStore)) 5%N 0%Z 1%N 7%N = [m5; m5].
Proof. apply (stored_Save_same (Save m5 NewMsgStore) m5). Qed.

Example Save_m5_m5' :
  stored (Save m5' (Save m5 NewMsgStore)) 5%N 0%Z 1%N 7%N = [m5; m5'].
Proof. apply (stored_Save_same (Save m5 NewMsgStore) m5'). Qed.

(** C8, the claim as stated fails: saving the same message a second time
    does not leave the store as it was after the first save. *)
Lemma Save_not_idempotent :
  Save m5 (Save m5 NewMsgStore) ≠ Save m5 NewMsgStore.
Proof.
  intros Heq.
  assert (Hs : stored (Save m5 (Save m5 NewMsgStore)) 5%N 0%Z 1%N 7%N
               = stored (Save m5 NewMsgStore) 5%N 0%Z 1%N 7%N)
    by (by rewrite Heq).
  rewrite Save_m5_twice in Hs.
  pose proof (stored_Save_same NewMsgStore m5) as H1; simpl in H1.
  rewrite H1 in Hs. discriminate Hs.
Qed.

(** C8 (amended): Save always appends. After [Save m1] the slice under the
    key of [m1] is the old slice followed by [m1]; after a further
    [Save m2] with the same (height, round, kind, sender) it is the old
    slice followed by [m1] and [m2], whether [m2] is [m1] again or a
    distinct message. *)
Theorem Save_appends (ms : MsgStore) (m1 m2 : Message) :
  key m2 = key m1 →
  stored (Save m1 ms) (H m1) (Round m1) (Code m1) (Address m1)
  = stored ms (H m1) (Round m1) (Code m1) (Address m1) ++ [m1]
  ∧ stored (Save m2 (Save m1 ms)) (H m1) (Round m1) (Code m1) (Address m1)
    = stored ms (H m1) (Round m1) (Code m1) (Address m1) ++ [m1; m2].
Proof.
  intros Hk. split; [apply stored_Save_same|].
  pose proof (stored_Save_same (Save m1 ms) m2) as H2.
  unfold key in Hk. injection Hk as E1 E2 E3 E4.
  rewrite E1, E2, E3, E4 in H2.
  rewrite H2, stored_Save_same, <- app_assoc. reflexivity.
Qed.

Lemma Save_appends_witness :
  key m5 = key m5
  ∧ stored (Save m5 (Save m5 NewMsgStore)) 5%N 0%Z 1%N 7%N = [m5; m5].
Proof.
  split; [reflexivity|].
  exact (proj2 (Save_appends NewMsgStore m5 m5 eq_refl)).
Defined.

(** Deleting keeps exactly the heights above the bound. *)
Lemma messages_DeleteMsgsBeforeHeight (ms : MsgStore) (height h : N) :
  messages (DeleteMsgsBeforeHeight height ms) !! h
  = if decide (h <= height)%N then None else messages ms !! h.
Proof.
  unfold DeleteMsgsBeforeHeight; simpl.
  destruct (decide (h <= height)%N) as [Hle|Hgt].
  - apply map_lookup_filter_None. right. intros x _ Hx. simpl in Hx. done.
  - destruct (messages ms !! h) as [x|] eqn:E.
    + apply map_lookup_filter_Some. split; [done|]. simpl. done.
    + apply map_lookup_filter_None. by left.
Qed.

(** C9, the claim as stated fails: a message saved at height 5, then
    everything up to height 10 deleted; [FirstHeightBuffered] still
    answers 5. *)
Lemma FirstHeightBuffered_after_delete_not_above :
  FirstHeightBuffered (DeleteMsgsBeforeHeight 10 (Save m5 NewMsgStore)) = 5%N
  ∧ ¬ (10 < FirstHeightBuffered
              (DeleteMsgsBeforeHeight 10 (Save m5 NewMsgStore)))%N.
Proof.
  assert (E : FirstHeightBuffered
                (DeleteMsgsBeforeHeight 10 (Save m5 NewMsgStore)) = 5%N)
    by reflexivity.
  split; [exact E|]. rewrite E. lia.
Qed.

(** C9 (amended): [DeleteMsgsBeforeHeight height] removes every height
    [h <= height] from the store and keeps the entries of the heights
    above; it does not change what [FirstHeightBuffered] returns, which is
    the height of the first message saved into the new store (the value
    that [Save] wrote when it found the field zero), not the lowest height
    retained. *)
Theorem DeleteMsgsBeforeHeight_keeps_firstHeight (ms : MsgStore) (height : N) :
  FirstHeightBuffered (DeleteMsgsBeforeHeight height ms)
  = FirstHeightBuffered ms
  ∧ (∀ h : N, (h <= height)%N →
       messages (DeleteMsgsBeforeHeight height ms) !! h = None)
  ∧ (∀ h : N, (height < h)%N →
       messages (DeleteMsgsBeforeHeight height ms) !! h = messages ms !! h)
  ∧ (∀ m : Message,
       FirstHeightBuffered (Save m ms)
       = if (FirstHeightBuffered ms =? 0)%N then H m
         else FirstHeightBuffered ms).
Proof.
  split; [reflexivity|]. split; [|split].
  - intros h Hle. rewrite messages_DeleteMsgsBeforeHeight.
    by destruct (decide (h <= height)%N).
  - intros h Hlt. rewrite messages_DeleteMsgsBeforeHeight.
    destruct (decide (h <= height)%N); [lia|done].
  - intros m. apply FirstHeightBuffered_Save.
Qed.

(** *** Get, RemoveMsg and sequences of calls *)

Lemma elem_of_stored (ms : MsgStore) (m : Message) h r c a :
  m ∈ stored ms h r c a ↔
  ∃ roundMap msgTypeMap addressMap msgs,
    messages ms !! h = Some roundMap ∧ roundMap !! r = Some msgTypeMap
    ∧ msgTypeMap !! c = Some addressMap ∧ addressMap !! a = Some msgs
    ∧ m ∈ msgs.
Proof.
  unfold stored. split.
  - destruct (messages ms !! h) as [x|] eqn:E1; simpl;
      [|rewrite !lookup_empty; simpl; by intros ?%elem_of_nil].
    destruct (x !! r) as [y|] eqn:E2; simpl;
      [|rewrite !lookup_empty; simpl; by intros ?%elem_of_nil].
    destruct (y !! c) as [z|] eqn:E3; simpl;
      [|rewrite !lookup_empty; simpl; by intros ?%elem_of_nil].
    destruct (z !! a) as [l|] eqn:E4; simpl; [|by intros ?%elem_of_nil].
    intros Hm. by exists x, y, z, l.
  - intros (x & y & z & l & -> & E2 & E3 & E4 & Hm); simpl.
    rewrite E2; simpl. rewrite E3; simpl. by rewrite E4.
Qed.

Lemma elem_of_Get (ms : MsgStore) (height : N) (query : Message → bool)
    (m : Message) :
  m ∈ Get height query ms ↔
  query m = true ∧ ∃ r c a, m ∈ stored ms height r c a.
Proof.
  unfold Get. split.
  - destruct (messages ms !! height) as [roundMap|] eqn:E1;
      [|by intros ?%elem_of_nil].
    intros ([r y] & Hm & Hy%elem_of_map_to_list)%list_elem_of_bind.
    apply list_elem_of_bind in Hm as ([c z] & Hm & Hz%elem_of_map_to_list).
    apply list_elem_of_bind in Hm as ([a l] & Hm & Hl%elem_of_map_to_list).
    apply list_elem_of_filter in Hm as [Hq Hm]. simpl in *.
    split; [done|]. exists r, c, a. apply elem_of_stored.
    by exists roundMap, y, z, l.
  - intros [Hq (r & c & a & Hm)].
    apply elem_of_stored in Hm as (x & y & z & l & E1 & E2 & E3 & E4 & Hm).
    rewrite E1.
    apply list_elem_of_bind. exists (r, y).
    split; [|by apply elem_of_map_to_list].
    apply list_elem_of_bind. exists (c, z).
    split; [|by apply elem_of_map_to_list].
    apply list_elem_of_bind. exists (a, l).
    split; [|by apply elem_of_map_to_list].
    apply list_elem_of_filter. by split.
Qed.

Lemma MsgStore_eq (a b : MsgStore) :
  firstHeight a = firstHeight b → messages a = messages b → a = b.
Proof. destruct a, b; simpl. by intros -> ->. Qed.

Lemma stored_DeleteMsgsBeforeHeight (ms : MsgStore) (height : N) h r c a :
  stored (DeleteMsgsBeforeHeight height ms) h r c a
  = if decide (h <= height)%N then [] else stored ms h r c a.
Proof.
  unfold stored. rewrite messages_DeleteMsgsBeforeHeight.
  destruct (decide (h <= height)%N); [|done].
  simpl. by rewrite !lookup_empty.
Qed.

Lemma stored_RemoveMsg (ms : MsgStore) (height : N) (round : Z) (step : N)
    (sender : common_Address) h r c a :
  stored (RemoveMsg height round step sender ms) h r c a
  = if decide ((h, r, c, a) = (height, round, step, sender)) then []
    else stored ms h r c a.
Proof.
  unfold RemoveMsg, stored.
  destruct (decide _) as [[= -> -> -> ->]|Hne].
  - destruct (messages ms !! height) as [x|] eqn:E1; simpl;
      [|by rewrite E1; simpl; rewrite !lookup_empty].
    destruct (x !! round) as [y|] eqn:E2; simpl;
      [|by rewrite E1; simpl; rewrite E2; simpl; rewrite !lookup_empty].
    destruct (y !! step) as [z|] eqn:E3; simpl;
      [|by rewrite E1; simpl; rewrite E2; simpl; rewrite E3; simpl;
           rewrite !lookup_empty].
    repeat (rewrite lookup_insert_eq; simpl). by rewrite lookup_delete_eq.
  - destruct (messages ms !! height) as [x|] eqn:E1; simpl; [|done].
    destruct (x !! round) as [y|] eqn:E2; simpl; [|done].
    destruct (y !! step) as [z|] eqn:E3; simpl; [|done].
    destruct (decide (height = h)) as [<-|?]; [|by rewrite lookup_insert_ne].
    rewrite lookup_insert_eq, E1; simpl.
    destruct (decide (round = r)) as [<-|?]; [|by rewrite lookup_insert_ne].
    rewrite lookup_insert_eq, E2; simpl.
    destruct (decide (step = c)) as [<-|?]; [|by rewrite lookup_insert_ne].
    rewrite lookup_insert_eq, E3; simpl.
    destruct (decide (sender = a)) as [<-|?]; [done|].
    by rewrite lookup_delete_ne.
Qed.

Lemma firstHeight_RemoveMsg (ms : MsgStore) height round step sender :
  firstHeight (RemoveMsg height round step sender ms) = firstHeight ms.
Proof. unfold RemoveMsg. by repeat case_match. Qed.

(** X1: Get returns exactly the messages stored at the height, under any
    round, kind and sender, that satisfy the query; on the new store it
    returns nothing. *)
Theorem Get_returns_the_stored_matches (ms : MsgStore) (height : N)
    (query : Message → bool) (m : Message) :
  (m ∈ Get height query ms ↔
   query m = true ∧ ∃ r c a, m ∈ stored ms height r c a)
  ∧ Get height query NewMsgStore = [].
Proof. split; [apply elem_of_Get|reflexivity]. Qed.

(** X2: after [Save m], Get returns what it returned before and, at the
    height of [m] and for a query that [m] satisfies, [m] as well. *)
Theorem Get_after_Save (ms : MsgStore) (m m' : Message) (height : N)
    (query : Message → bool) :
  m' ∈ Get height query (Save m ms) ↔
  m' ∈ Get height query ms ∨ (m' = m ∧ height = H m ∧ query m = true).
Proof.
  rewrite !elem_of_Get. split.
  - intros [Hq (r & c & a & Hm)].
    destruct (decide ((height, r, c, a) = key m)) as [E|Hne].
    + unfold key in E. injection E as -> -> -> ->.
      rewrite stored_Save_same in Hm.
      apply elem_of_app in Hm as [Hm|Hm%list_elem_of_singleton].
      * left. split; [done|]. by exists (Round m), (Code m), (Address m).
      * right. by subst.
    + rewrite stored_Save_other in Hm by done. left. split; [done|].
      by exists r, c, a.
  - intros [[Hq (r & c & a & Hm)]|(-> & -> & Hq)].
    + split; [done|]. exists r, c, a.
      destruct (decide ((height, r, c, a) = key m)) as [E|Hne].
      * unfold key in E. injection E as -> -> -> ->.
        rewrite stored_Save_same. apply elem_of_app. by left.
      * by rewrite stored_Save_other.
    + split; [done|]. exists (Round m), (Code m), (Address m).
      rewrite stored_Save_same. apply elem_of_app. right.
      by apply list_elem_of_singleton.
Qed.

(** X3: after [DeleteMsgsBeforeHeight height], Get returns nothing at the
    heights up to [height] and what it returned before at the heights
    above. *)
Theorem Get_after_DeleteMsgsBeforeHeight (ms : MsgStore) (height h : N)
    (query : Message → bool) :
  Get h query (DeleteMsgsBeforeHeight height ms)
  = if decide (h <= height)%N then [] else Get h query ms.
Proof.
  unfold Get at 1. rewrite messages_DeleteMsgsBeforeHeight.
  by destruct (decide (h <= height)%N).
Qed.

(** X4: two deletions in a row are one deletion up to the larger height;
    in particular a repeated deletion changes nothing. *)
Theorem DeleteMsgsBeforeHeight_twice (ms : MsgStore) (a b : N) :
  DeleteMsgsBeforeHeight a (DeleteMsgsBeforeHeight b ms)
  = DeleteMsgsBeforeHeight (N.max a b) ms
  ∧ DeleteMsgsBeforeHeight a (DeleteMsgsBeforeHeight a ms)
    = DeleteMsgsBeforeHeight a ms.
Proof.
  assert (E : ∀ x y, DeleteMsgsBeforeHeight x (DeleteMsgsBeforeHeight y ms)
                     = DeleteMsgsBeforeHeight (N.max x y) ms).
  { intros x y. apply MsgStore_eq; [reflexivity|].
    apply map_eq. intros h. rewrite !messages_DeleteMsgsBeforeHeight.
    repeat case_decide; try done; lia. }
  split; [apply E|]. rewrite E. by rewrite N.max_id.
Qed.

(** X5: RemoveMsg empties the slice of its (height, round, kind, sender),
    whatever number of messages it held, leaves every other slice as it
    was, and does not change what FirstHeightBuffered returns. *)
Theorem RemoveMsg_empties_one_slice (ms : MsgStore) (height : N) (round : Z)
    (step : N) (sender : common_Address) :
  stored (RemoveMsg height round step sender ms) height round step sender = []
  ∧ (∀ h r c a, (h, r, c, a) ≠ (height, round, step, sender) →
       stored (RemoveMsg height round step sender ms) h r c a
       = stored ms h r c a)
  ∧ FirstHeightBuffered (RemoveMsg height round step sender ms)
    = FirstHeightBuffered ms.
Proof.
  split; [|split].
  - rewrite stored_RemoveMsg. by rewrite decide_True.
  - intros h r c a Hne. rewrite stored_RemoveMsg. by rewrite decide_False.
  - apply firstHeight_RemoveMsg.
Qed.

Lemma FirstHeightBuffered_run (ops : list op) (ms : MsgStore) :
  FirstHeightBuffered (run ops ms)
  = if (FirstHeightBuffered ms =? 0)%N then first_nonzero (saved_heights ops)
    else FirstHeightBuffered ms.
Proof.
  revert ms. induction ops as [|o ops IH]; intros ms.
  - simpl. by destruct (_ =? _)%N eqn:E; [apply N.eqb_eq in E|].
  - change (run (o :: ops) ms) with (run ops (apply_op ms o)). rewrite IH.
    destruct o as [m|height|height round step sender];
      cbn [apply_op saved_heights first_nonzero].
    + rewrite FirstHeightBuffered_Save.
      destruct (FirstHeightBuffered ms =? 0)%N eqn:E; [|by rewrite E].
      by destruct (H m =? 0)%N eqn:E'.
    + reflexivity.
    + unfold FirstHeightBuffered. by rewrite firstHeight_RemoveMsg.
Qed.

(** X6: after any sequence of Save, DeleteMsgsBeforeHeight and RemoveMsg
    calls on a new store, FirstHeightBuffered returns the height of the
    first saved message whose height is not zero (zero when there is
    none), whatever has been deleted or removed since. *)
Theorem FirstHeightBuffered_of_calls (ops : list op) :
  FirstHeightBuffered (run ops NewMsgStore)
  = first_nonzero (saved_heights ops).
Proof. rewrite FirstHeightBuffered_run. reflexivity. Qed.

Lemma stored_run_keyed (ops : list op) (ms : MsgStore) :
  (∀ h r c a m, m ∈ stored ms h r c a → key m = (h, r, c, a)) →
  ∀ h r c a m, m ∈ stored (run ops ms) h r c a → key m = (h, r, c, a).
Proof.
  revert ms. induction ops as [|o ops IH]; intros ms Hms; [done|].
  change (run (o :: ops) ms) with (run ops (apply_op ms o)).
  apply IH. clear IH.
  intros h r c a m Hm.
  destruct o as [m0|height|height round step sender]; simpl in Hm.
  - destruct (decide ((h, r, c, a) = key m0)) as [E|Hne].
    + pose proof E as E'. unfold key in E'. injection E' as -> -> -> ->.
      rewrite stored_Save_same in Hm.
      apply elem_of_app in Hm as [Hm|Hm%list_elem_of_singleton].
      * by apply Hms.
      * by subst.
    + rewrite stored_Save_other in Hm by done. by apply Hms.
  - rewrite stored_DeleteMsgsBeforeHeight in Hm.
    destruct (decide _); [by apply elem_of_nil in Hm|by apply Hms].
  - rewrite stored_RemoveMsg in Hm.
    destruct (decide _); [by apply elem_of_nil in Hm|by apply Hms].
Qed.

(** X7: in a store built from the new store by any sequence of calls,
    every message is filed under its own height, round, kind and sender;
    so every message that Get returns for a height has that height. *)
Theorem Get_returns_messages_of_the_height (ops : list op) (height : N)
    (query : Message → bool) (m : Message) :
  (∀ h r c a, m ∈ stored (run ops NewMsgStore) h r c a →
     key m = (h, r, c, a))
  ∧ (m ∈ Get height query (run ops NewMsgStore) → H m = height).
Proof.
  assert (Hk : ∀ h r c a m0, m0 ∈ stored (run ops NewMsgStore) h r c a
                             → key m0 = (h, r, c, a)).
  { apply stored_run_keyed. intros h r c a m0 Hm.
    unfold stored in Hm. simpl in Hm. rewrite !lookup_empty in Hm.
    by apply elem_of_nil in Hm. }
  split; [intros h r c a; apply Hk|].
  intros [_ (r & c & a & Hm)]%elem_of_Get.
  apply Hk in Hm. unfold key in Hm. by injection Hm.
Qed.

End MsgStoreProofs.

(** ** Proposal and Vote codecs *)

Module CodecProofs.
Import Codec.

Local Open Scope Z_scope.

Lemma int64_uint64 (x : Z) : - 2 ^ 63 <= x < 2 ^ 63 → int64 (uint64 x) = x.
Proof.
  intros Hx. unfold int64, uint64. rewrite Z.mod_mod by lia.
  destruct (Z_lt_le_dec x 0) as [Hneg|Hpos].
  - replace (x mod 2 ^ 64) with (x + 2 ^ 64).
    + destruct (x + 2 ^ 64 <? 2 ^ 63) eqn:E; [apply Z.ltb_lt in E|]; lia.
    + apply Z.mod_unique with (-1); lia.
  - rewrite Z.mod_small by lia.
    destruct (x <? 2 ^ 63) eqn:E; [|apply Z.ltb_ge in E]; lia.
Qed.

Lemma int64_small (x : Z) : 0 <= x < 2 ^ 63 → int64 x = x.
Proof.
  intros Hx. unfold int64. rewrite Z.mod_small by lia.
  destruct (x <? 2 ^ 63) eqn:E; [|apply Z.ltb_ge in E]; lia.
Qed.

Lemma int64_large (x : Z) : 2 ^ 63 <= x < 2 ^ 64 → int64 x = x - 2 ^ 64.
Proof.
  intros Hx. unfold int64. rewrite Z.mod_small by lia.
  destruct (x <? 2 ^ 63) eqn:E; [apply Z.ltb_lt in E|]; lia.
Qed.

Lemma uint64_small (x : Z) : 0 <= x < 2 ^ 64 → uint64 x = x.
Proof. intros Hx. unfold uint64. apply Z.mod_small; lia. Qed.

(** *** What the decoders reject *)

Lemma Proposal_DecodeRLP_flag_mismatch (w : wireProposal) :
  wIsValidRoundNil w = true → wValidRound w ≠ 0 →
  Proposal_DecodeRLP w = Err errBadValidRoundNil.
Proof.
  intros Hf Hv. unfold Proposal_DecodeRLP. rewrite Hf.
  destruct (wValidRound w =? 0) eqn:E; [apply Z.eqb_eq in E; lia|].
  reflexivity.
Qed.

Lemma Proposal_DecodeRLP_round_above (w : wireProposal) :
  MaxRound < wRound w → ∃ e, Proposal_DecodeRLP w = Err e.
Proof.
  intros Hr. unfold Proposal_DecodeRLP.
  destruct (wIsValidRoundNil w);
    [destruct (negb (wValidRound w =? 0)); [by eexists|]|]; simpl;
    (replace (wRound w <=? MaxRound) with false
       by (symmetry; apply Z.leb_gt; lia));
    rewrite ?andb_false_r; simpl; by eexists.
Qed.

Lemma Proposal_DecodeRLP_validRound_above (w : wireProposal) :
  wIsValidRoundNil w = false → MaxRound < wValidRound w < 2 ^ 63 →
  Proposal_DecodeRLP w = Err errInvalidRounds.
Proof.
  intros Hf Hr. unfold Proposal_DecodeRLP. rewrite Hf; simpl.
  unfold MaxRound in *. rewrite int64_small by lia.
  replace (wValidRound w <=? 99) with false
    by (symmetry; apply Z.leb_gt; lia).
  reflexivity.
Qed.

Lemma Proposal_DecodeRLP_nil_block (w : wireProposal) :
  wProposalBlock w = None → ∃ e, Proposal_DecodeRLP w = Err e.
Proof.
  intros Hb. unfold Proposal_DecodeRLP.
  destruct (wIsValidRoundNil w);
    [destruct (negb (wValidRound w =? 0)); [by eexists|]|]; simpl;
    match goal with |- context [negb ?b] => destruct b end; simpl;
    rewrite ?Hb; by eexists.
Qed.

Lemma Vote_DecodeRLP_round_above (w : wireVote) :
  MaxRound < wvRound w < 2 ^ 63 → Vote_DecodeRLP w = Err errInvalidMessage.
Proof.
  intros Hr. unfold Vote_DecodeRLP, MaxRound in *.
  rewrite int64_small by lia.
  replace (wvRound w >? 99) with true by (symmetry; rewrite Z.gtb_ltb; apply Z.ltb_lt; lia).
  reflexivity.
Qed.

(** A wire round with its top bit set becomes negative before it is
    compared with MaxRound, and goes through. *)
Lemma Vote_DecodeRLP_round_top_bit (w : wireVote) :
  2 ^ 63 <= wvRound w < 2 ^ 64 →
  Vote_DecodeRLP w
  = Ok {| vRound := wvRound w - 2 ^ 64;
          vHeight := wvHeight w;
          ProposedBlockHash := wvProposedBlockHash w |}.
Proof.
  intros Hr. unfold Vote_DecodeRLP, MaxRound.
  rewrite int64_large by lia.
  replace (wvRound w - 2 ^ 64 >? 99) with false
    by (symmetry; rewrite Z.gtb_ltb; apply Z.ltb_ge; lia).
  reflexivity.
Qed.

(** C6, the code at the failing inputs: a vote whose wire round is
    2^64 - 1, and a proposal whose wire valid round is 2^64 - 1 with the
    is-nil flag unset, both far above MaxRound, are decoded without error,
    to round -1 and valid round -1. *)
Theorem DecodeRLP_accepts_round_above_MaxRound :
  MaxRound < wvRound wireVote_top
  ∧ Vote_DecodeRLP wireVote_top
    = Ok {| vRound := -1; vHeight := 1; ProposedBlockHash := 7%N |}
  ∧ MaxRound < wValidRound wireProposal_top
  ∧ Proposal_DecodeRLP wireProposal_top
    = Ok {| Round := 0; Height := 1; ValidRound := -1;
            ProposalBlock := Some block7 |}.
Proof.
  split; [reflexivity|]. split; [vm_compute; reflexivity|].
  split; [reflexivity|]. vm_compute; reflexivity.
Qed.

(** *** Round trips *)

(** C5, the claim as stated fails: a proposal with valid round -1 and a
    block, in round 100, is encoded, and the decoder refuses what was
    written. *)
Lemma roundtrip_fails_above_MaxRound :
  ValidRound proposal100 = -1
  ∧ ProposalBlock proposal100 = Some block7
  ∧ bind (Proposal_EncodeRLP proposal100) Proposal_DecodeRLP
    = Err errInvalidRounds.
Proof. repeat split; vm_compute; reflexivity. Qed.

Lemma Proposal_roundtrip (p : Proposal) :
  0 <= Round p <= MaxRound →
  ValidRound p = -1 ∨ 0 <= ValidRound p <= MaxRound →
  ProposalBlock p ≠ None →
  0 <= Height p →
  bind (Proposal_EncodeRLP p) Proposal_DecodeRLP = Ok p.
Proof.
  destruct p as [r h vr [b|]]; simpl; intros Hr Hvr Hb Hh; [|done].
  unfold MaxRound in *. unfold Proposal_EncodeRLP; simpl.
  assert (Er : int64 (uint64 r) = r) by (apply int64_uint64; lia).
  assert (Eu : uint64 r = r) by (apply uint64_small; lia).
  destruct (vr =? -1) eqn:Evr.
  - apply Z.eqb_eq in Evr. subst vr.
    unfold rlp_Encode; simpl.
    destruct (h <? 0) eqn:Eh; [apply Z.ltb_lt in Eh; lia|]. simpl.
    unfold Proposal_DecodeRLP; simpl. rewrite Eu.
    replace (r <=? MaxRound) with true
      by (symmetry; apply Z.leb_le; unfold MaxRound; lia).
    simpl. rewrite <- Eu at 1. by rewrite Er.
  - apply Z.eqb_neq in Evr.
    destruct Hvr as [|Hvr]; [lia|].
    unfold rlp_Encode; simpl.
    destruct (h <? 0) eqn:Eh; [apply Z.ltb_lt in Eh; lia|]. simpl.
    unfold Proposal_DecodeRLP; simpl.
    rewrite (int64_uint64 vr) by lia. rewrite Eu.
    replace (vr <=? MaxRound) with true
      by (symmetry; apply Z.leb_le; unfold MaxRound; lia).
    replace (r <=? MaxRound) with true
      by (symmetry; apply Z.leb_le; unfold MaxRound; lia).
    simpl. rewrite <- Eu at 1. by rewrite Er.
Qed.

Lemma Vote_roundtrip (v : Vote) :
  0 <= vRound v <= MaxRound →
  0 <= vHeight v →
  bind (Vote_EncodeRLP v) Vote_DecodeRLP = Ok v.
Proof.
  destruct v as [r h x]; simpl; intros Hr Hh. unfold MaxRound in *.
  unfold Vote_EncodeRLP, rlp_Encode_vote; simpl.
  destruct (h <? 0) eqn:Eh; [apply Z.ltb_lt in Eh; lia|]. simpl.
  unfold Vote_DecodeRLP; simpl.
  rewrite (int64_uint64 r) by lia.
  replace (r >? MaxRound) with false
    by (symmetry; rewrite Z.gtb_ltb; apply Z.ltb_ge; unfold MaxRound; lia).
  reflexivity.
Qed.

(** C5 (amended): for every Proposal with round in [0, MaxRound], valid
    round in {-1} ∪ [0, MaxRound], a block and a height that is not
    negative, DecodeRLP after EncodeRLP gives the proposal back (round,
    height, valid round, also -1 through the is-nil flag, and block); and
    for every Vote with round in [0, MaxRound] and a height that is not
    negative, DecodeRLP after EncodeRLP gives the vote back. *)
Theorem EncodeRLP_DecodeRLP_roundtrip (p : Proposal) (v : Vote) :
  0 <= Round p <= MaxRound →
  ValidRound p = -1 ∨ 0 <= ValidRound p <= MaxRound →
  ProposalBlock p ≠ None →
  0 <= Height p →
  0 <= vRound v <= MaxRound →
  0 <= vHeight v →
  bind (Proposal_EncodeRLP p) Proposal_DecodeRLP = Ok p
  ∧ bind (Vote_EncodeRLP v) Vote_DecodeRLP = Ok v.
Proof.
  intros. split; [by apply Proposal_roundtrip|by apply Vote_roundtrip].
Qed.

Lemma EncodeRLP_DecodeRLP_roundtrip_witness :
  bind (Proposal_EncodeRLP proposal3) Proposal_DecodeRLP = Ok proposal3
  ∧ bind (Vote_EncodeRLP vote3) Vote_DecodeRLP = Ok vote3.
Proof.
  apply (EncodeRLP_DecodeRLP_roundtrip proposal3 vote3);
    unfold MaxRound; simpl; try lia; discriminate.
Defined.

(** *** The decoders read back, and the exact domain of the round trip *)

Lemma uint64_int64 (x : Z) : wire_uint64 x → uint64 (int64 x) = x.
Proof.
  unfold wire_uint64. intros Hx.
  destruct (Z_lt_le_dec x (2 ^ 63)).
  - rewrite int64_small by lia. apply uint64_small; lia.
  - rewrite int64_large by lia. unfold uint64.
    symmetry. apply Z.mod_unique with (-1); lia.
Qed.

Lemma int64_range (x : Z) : is_int64 (int64 x).
Proof.
  unfold is_int64, int64.
  pose proof (Z.mod_pos_bound x (2 ^ 64)) as Hm.
  destruct (x mod 2 ^ 64 <? 2 ^ 63) eqn:E;
    [apply Z.ltb_lt in E|apply Z.ltb_ge in E]; lia.
Qed.

Lemma uint64_range (x : Z) : wire_uint64 (uint64 x).
Proof. unfold wire_uint64, uint64. apply Z.mod_pos_bound. lia. Qed.

Lemma int64_uint64_minus_one (x : Z) :
  wire_uint64 x → (int64 x = -1 ↔ x = 2 ^ 64 - 1).
Proof.
  unfold wire_uint64. intros Hx.
  destruct (Z_lt_le_dec x (2 ^ 63)).
  - rewrite int64_small by lia. lia.
  - rewrite int64_large by lia. lia.
Qed.

(** What a successful Proposal.DecodeRLP has checked and copied. *)
Lemma Proposal_DecodeRLP_Ok (w : wireProposal) (p : Proposal) :
  Proposal_DecodeRLP w = Ok p →
  ValidRound p = (if wIsValidRoundNil w then -1 else int64 (wValidRound w))
  ∧ (wIsValidRoundNil w = true → wValidRound w = 0)
  ∧ ValidRound p <= MaxRound ∧ wRound w <= MaxRound
  ∧ Round p = int64 (wRound w) ∧ Height p = wHeight w
  ∧ ProposalBlock p = wProposalBlock w ∧ wProposalBlock w ≠ None.
Proof.
  unfold Proposal_DecodeRLP. destruct (wIsValidRoundNil w).
  - destruct (wValidRound w =? 0) eqn:E0; simpl; [|done].
    apply Z.eqb_eq in E0.
    destruct (wRound w <=? MaxRound) eqn:E1; simpl; [|done].
    apply Z.leb_le in E1.
    destruct (wProposalBlock w) eqn:E2; [|done]. intros [= <-]; simpl.
    unfold MaxRound in *. repeat split; try done; lia.
  - simpl.
    destruct (int64 (wValidRound w) <=? MaxRound) eqn:E0; simpl; [|done].
    apply Z.leb_le in E0.
    destruct (wRound w <=? MaxRound) eqn:E1; simpl; [|done].
    apply Z.leb_le in E1.
    destruct (wProposalBlock w) eqn:E2; [|done]. intros [= <-]; simpl.
    repeat split; try done.
Qed.

(** X8: a proposal that DecodeRLP returns has its round in [0, MaxRound],
    its valid round at most MaxRound (and an int64: it may be negative),
    the height of the wire form and a block. *)
Theorem Proposal_DecodeRLP_bounds (w : wireProposal) (p : Proposal) :
  wire_uint64 (wRound w) →
  Proposal_DecodeRLP w = Ok p →
  0 <= Round p <= MaxRound
  ∧ ValidRound p <= MaxRound ∧ is_int64 (ValidRound p)
  ∧ Height p = wHeight w
  ∧ ProposalBlock p ≠ None.
Proof.
  intros Hr Hd.
  apply Proposal_DecodeRLP_Ok in Hd as (Ev & _ & Hv & Hw & Er & Eh & Eb & Hb).
  unfold wire_uint64, MaxRound in *.
  rewrite Er, int64_small by lia.
  split; [lia|]. split; [done|]. split.
  - rewrite Ev. destruct (wIsValidRoundNil w); [|apply int64_range].
    unfold is_int64; lia.
  - split; [done|]. by rewrite Eb.
Qed.

Lemma Proposal_DecodeRLP_bounds_witness :
  0 <= 3 <= MaxRound ∧ -1 <= MaxRound ∧ is_int64 (-1)
  ∧ 10 = 10 ∧ Some block7 ≠ None.
Proof.
  apply (Proposal_DecodeRLP_bounds wireProposal3
           {| Round := 3; Height := 10; ValidRound := -1;
              ProposalBlock := Some block7 |}).
  - unfold wire_uint64; simpl; lia.
  - reflexivity.
Defined.

(** X9: for a wire proposal that DecodeRLP accepts (unsigned 64-bit rounds,
    a height that is not negative), EncodeRLP of the decoded proposal
    gives the wire form back, except in one case: an unset is-nil flag with
    valid round 2^64 - 1, which is decoded to -1 and written back as the
    flag with valid round 0. *)
Theorem Proposal_EncodeRLP_after_DecodeRLP (w : wireProposal) (p : Proposal) :
  wire_uint64 (wRound w) → wire_uint64 (wValidRound w) → 0 <= wHeight w →
  Proposal_DecodeRLP w = Ok p →
  (Proposal_EncodeRLP p = Ok w
   ↔ ¬ (wIsValidRoundNil w = false ∧ wValidRound w = 2 ^ 64 - 1)).
Proof.
  intros Hr Hv Hh Hd.
  apply Proposal_DecodeRLP_Ok in Hd as (Ev & Hf & _ & Hw & Er & Eh & Eb & Hb).
  destruct p as [r h vr b]; simpl in *. subst r h b.
  destruct w as [wr wh wv wf wb]; simpl in *.
  destruct wb as [blk|]; [|done].
  unfold Proposal_EncodeRLP; simpl.
  assert (Ewr : uint64 (int64 wr) = wr) by by apply uint64_int64.
  assert (Eh : (wh <? 0) = false) by (apply Z.ltb_ge; lia).
  destruct wf; subst vr.
  - rewrite (Hf eq_refl). simpl. unfold rlp_Encode; simpl. rewrite Eh, Ewr.
    split; [by intros _ [? _]|done].
  - destruct (int64 wv =? -1) eqn:E.
    + apply Z.eqb_eq, int64_uint64_minus_one in E; [|done].
      unfold rlp_Encode; simpl. rewrite Eh. split; [done|].
      intros Hn. destruct Hn. by split.
    + apply Z.eqb_neq in E. unfold rlp_Encode; simpl.
      rewrite Eh, Ewr, uint64_int64 by done.
      split; [|done]. intros _ [_ Hx].
      apply int64_uint64_minus_one in Hx; [|done]. done.
Qed.

Lemma Proposal_EncodeRLP_after_DecodeRLP_witness :
  Proposal_EncodeRLP {| Round := 3; Height := 10; ValidRound := -1;
                        ProposalBlock := Some block7 |} = Ok wireProposal3
  ↔ ¬ (wIsValidRoundNil wireProposal3 = false
        ∧ wValidRound wireProposal3 = 2 ^ 64 - 1).
Proof.
  apply (Proposal_EncodeRLP_after_DecodeRLP wireProposal3).
  - unfold wire_uint64; simpl; lia.
  - unfold wire_uint64; simpl; lia.
  - simpl; lia.
  - reflexivity.
Defined.

(** X10: for a wire vote that DecodeRLP accepts (an unsigned 64-bit round,
    a height that is not negative), EncodeRLP of the decoded vote gives the
    wire form back, also when the round was decoded to a negative one. *)
Theorem Vote_EncodeRLP_after_DecodeRLP (w : wireVote) (v : Vote) :
  wire_uint64 (wvRound w) → 0 <= wvHeight w →
  Vote_DecodeRLP w = Ok v →
  Vote_EncodeRLP v = Ok w.
Proof.
  intros Hr Hh. unfold Vote_DecodeRLP.
  destruct (int64 (wvRound w) >? MaxRound); [done|]. intros [= <-].
  unfold Vote_EncodeRLP, rlp_Encode_vote; simpl.
  rewrite uint64_int64 by done.
  replace (wvHeight w <? 0) with false by (symmetry; apply Z.ltb_ge; lia).
  by destruct w.
Qed.

Lemma Vote_EncodeRLP_after_DecodeRLP_witness :
  Vote_EncodeRLP {| vRound := 3; vHeight := 10; ProposedBlockHash := 7%N |}
  = Ok wireVote3.
Proof.
  apply (Vote_EncodeRLP_after_DecodeRLP wireVote3).
  - unfold wire_uint64; simpl; lia.
  - simpl; lia.
  - reflexivity.
Defined.

Lemma uint64_le_MaxRound (x : Z) :
  is_int64 x → (uint64 x <= MaxRound ↔ 0 <= x <= MaxRound).
Proof.
  unfold is_int64, MaxRound. intros Hx.
  destruct (Z_lt_le_dec x 0).
  - replace (uint64 x) with (x + 2 ^ 64); [lia|].
    unfold uint64. apply Z.mod_unique with (-1); lia.
  - rewrite uint64_small by lia. lia.
Qed.

Lemma Proposal_roundtrip_iff (p : Proposal) :
  is_int64 (Round p) → is_int64 (ValidRound p) →
  ProposalBlock p ≠ None → 0 <= Height p →
  (bind (Proposal_EncodeRLP p) Proposal_DecodeRLP = Ok p
   ↔ 0 <= Round p <= MaxRound ∧ ValidRound p <= MaxRound).
Proof.
  destruct p as [r h vr [b|]]; simpl; intros Hr Hvr Hb Hh; [|done].
  pose proof (uint64_le_MaxRound r Hr) as Hle.
  assert (Er : int64 (uint64 r) = r) by by apply int64_uint64.
  assert (Evr : int64 (uint64 vr) = vr) by by apply int64_uint64.
  assert (Eh : (h <? 0) = false) by (apply Z.ltb_ge; lia).
  unfold Proposal_EncodeRLP; simpl.
  destruct (vr =? -1) eqn:E; unfold rlp_Encode; simpl; rewrite Eh; simpl;
    unfold Proposal_DecodeRLP; simpl; rewrite ?Evr.
  - apply Z.eqb_eq in E. subst vr.
    destruct (uint64 r <=? MaxRound) eqn:E1; simpl.
    + apply Z.leb_le in E1. rewrite Er. unfold MaxRound in *.
      split; [lia|done].
    + apply Z.leb_gt in E1. split; [done|]. lia.
  - destruct (vr <=? MaxRound) eqn:E0; simpl;
      [apply Z.leb_le in E0|apply Z.leb_gt in E0; split; [done|lia]].
    destruct (uint64 r <=? MaxRound) eqn:E1; simpl.
    + apply Z.leb_le in E1. rewrite Er. split; [lia|done].
    + apply Z.leb_gt in E1. split; [done|]. lia.
Qed.

Lemma Vote_roundtrip_iff (v : Vote) :
  is_int64 (vRound v) → 0 <= vHeight v →
  (bind (Vote_EncodeRLP v) Vote_DecodeRLP = Ok v ↔ vRound v <= MaxRound).
Proof.
  destruct v as [r h x]; simpl. intros Hr Hh.
  unfold Vote_EncodeRLP, rlp_Encode_vote; simpl.
  replace (h <? 0) with false by (symmetry; apply Z.ltb_ge; lia). simpl.
  unfold Vote_DecodeRLP; simpl. rewrite int64_uint64 by done.
  destruct (r >? MaxRound) eqn:E; rewrite Z.gtb_ltb in E;
    [apply Z.ltb_lt in E|apply Z.ltb_ge in E]; split; try done; lia.
Qed.

(** X11: the exact domain of the round trip. For a proposal with a block
    and a height that is not negative, DecodeRLP after EncodeRLP gives the
    proposal back exactly when its round is in [0, MaxRound] and its valid
    round is at most MaxRound: negative valid rounds other than -1 go
    through as well. For a vote with a height that is not negative, exactly
    when its round is at most MaxRound, negative rounds included. *)
Theorem EncodeRLP_DecodeRLP_exact_domain (p : Proposal) (v : Vote) :
  is_int64 (Round p) → is_int64 (ValidRound p) →
  ProposalBlock p ≠ None → 0 <= Height p →
  is_int64 (vRound v) → 0 <= vHeight v →
  (bind (Proposal_EncodeRLP p) Proposal_DecodeRLP = Ok p
   ↔ 0 <= Round p <= MaxRound ∧ ValidRound p <= MaxRound)
  ∧ (bind (Vote_EncodeRLP v) Vote_DecodeRLP = Ok v ↔ vRound v <= MaxRound).
Proof.
  intros. split; [by apply Proposal_roundtrip_iff|by apply Vote_roundtrip_iff].
Qed.

Lemma EncodeRLP_DecodeRLP_exact_domain_witness :
  (bind (Proposal_EncodeRLP proposal_neg) Proposal_DecodeRLP = Ok proposal_neg
   ↔ 0 <= 3 <= MaxRound ∧ -5 <= MaxRound)
  ∧ (bind (Vote_EncodeRLP vote_neg) Vote_DecodeRLP = Ok vote_neg
     ↔ -5 <= MaxRound).
Proof.
  apply (EncodeRLP_DecodeRLP_exact_domain proposal_neg vote_neg);
    unfold is_int64; simpl; try lia; discriminate.
Defined.

(** X12: Proposal.EncodeRLP fails on a nil block, and on a negative height
    when there is a block. What it writes otherwise has unsigned 64-bit
    rounds, the is-nil flag set exactly when the valid round is -1, valid
    round 0 under the flag, and a block: DecodeRLP never answers it with
    the flag error or the nil-block error. *)
Theorem Proposal_EncodeRLP_writes_consistent_flag (p : Proposal) :
  (ProposalBlock p = None → Proposal_EncodeRLP p = Err errEncodeNilBlock)
  ∧ (ProposalBlock p ≠ None → Height p < 0 →
     Proposal_EncodeRLP p = Err errNegativeBigInt)
  ∧ (∀ w, Proposal_EncodeRLP p = Ok w →
       wire_uint64 (wRound w) ∧ wire_uint64 (wValidRound w)
       ∧ (wIsValidRoundNil w = true ↔ ValidRound p = -1)
       ∧ (wIsValidRoundNil w = true → wValidRound w = 0)
       ∧ wProposalBlock w ≠ None
       ∧ Proposal_DecodeRLP w ≠ Err errBadValidRoundNil
       ∧ Proposal_DecodeRLP w ≠ Err errNilDecodedBlock).
Proof.
  destruct p as [r h vr b]; simpl. split; [by intros ->|]. split.
  - intros Hb Hh. destruct b as [b|]; [|done].
    unfold Proposal_EncodeRLP; simpl.
    destruct (vr =? -1); unfold rlp_Encode; simpl;
      by replace (h <? 0) with true by (symmetry; apply Z.ltb_lt; lia).
  - intros w. unfold Proposal_EncodeRLP; simpl.
    destruct b as [b|]; [|done].
    destruct (vr =? -1) eqn:E; unfold rlp_Encode; simpl;
      destruct (h <? 0); try done; intros [= <-]; simpl;
      [apply Z.eqb_eq in E|apply Z.eqb_neq in E].
    + split; [apply uint64_range|]. split; [unfold wire_uint64; lia|].
      split; [done|]. split; [done|]. split; [done|].
      unfold Proposal_DecodeRLP; simpl.
      split; destruct (negb _); simpl; done.
    + split; [apply uint64_range|]. split; [apply uint64_range|].
      split; [split; [done|by intros ->]|]. split; [done|]. split; [done|].
      unfold Proposal_DecodeRLP; simpl.
      split; destruct (negb _); simpl; done.
Qed.

End CodecProofs.

(** ** Typed evidence and Proof codecs *)

Module AccountabilityProofs.
Import Accountability.

Lemma encUint8_roundtrip (b : byte) : decUint8 (encUint8 b) = Ok b.
Proof.
  unfold encUint8. destruct (Byte.eqb b Byte.x00) eqn:E; simpl.
  - apply Byte.byte_dec_bl in E. by subst.
  - by rewrite E.
Qed.

Lemma mapM_Ok_Forall2 {A B : Type} (f : A → result B) (l : list A)
    (l' : list B) :
  mapM f l = Ok l' → Forall2 (λ x y, f x = Ok y) l l'.
Proof.
  revert l'. induction l as [|x l IH]; intros l'; simpl.
  - intros [= <-]. constructor.
  - destruct (f x) as [y|] eqn:E; simpl; [|done].
    destruct (mapM f l) as [ys|]; simpl; [|done].
    intros [= <-]. constructor; [done|]. by apply IH.
Qed.

Lemma mapM_Err {A B : Type} (f : A → result B) (l : list A) (x : A)
    (e : error) :
  x ∈ l → f x = Err e → ∃ e', mapM f l = Err e'.
Proof.
  intros Hx Hf. induction l as [|y l IH]; [by apply elem_of_nil in Hx|].
  simpl. apply elem_of_cons in Hx as [<-|Hx].
  - rewrite Hf. simpl. by eexists.
  - destruct (f y); simpl; [|by eexists].
    destruct (IH Hx) as [e' ->]. simpl. by eexists.
Qed.

Section Roundtrip.

Variable body : Type.
Variable encodeBody : kind → body → item.
Variable decodeBody : kind → item → option body.

(** typedMessage.EncodeRLP writes exactly the typedMessage values that
    embed a pointer to a message. *)
Lemma typedMessage_EncodeRLP_Ok (t : MessageValue body) (s : item) :
  typedMessage_EncodeRLP encodeBody t = Ok s →
  ∃ m, t = Pointer m
    ∧ s = Lst [encUint8 (Code m); encodeBody (msgKind m) (msgBody m)].
Proof. destruct t as [m|t]; [|done]. intros [= <-]. by exists m. Qed.

Lemma evidences_EncodeRLP_Ok (l : list (MessageValue body)) (ss : list item) :
  mapM (typedMessage_EncodeRLP encodeBody) l = Ok ss →
  ∃ ms, l = map Pointer ms
    ∧ ss = map (λ m, Lst [encUint8 (Code m);
                          encodeBody (msgKind m) (msgBody m)]) ms.
Proof.
  revert ss. induction l as [|t l IH]; intros ss; simpl.
  - intros [= <-]. by exists [].
  - destruct (typedMessage_EncodeRLP encodeBody t) as [s|] eqn:E; [|done].
    apply typedMessage_EncodeRLP_Ok in E as (m & -> & ->). simpl.
    destruct (mapM _ l) as [ss'|]; [|done]. simpl. intros [= <-].
    destruct (IH ss' eq_refl) as (ms & -> & ->). by exists (m :: ms).
Qed.

Lemma evidences_EncodeRLP_pointers (ms : list (Message body)) :
  mapM (typedMessage_EncodeRLP encodeBody) (map Pointer ms)
  = Ok (map (λ m, Lst [encUint8 (Code m);
                       encodeBody (msgKind m) (msgBody m)]) ms).
Proof. induction ms as [|m ms IH]; simpl; [done|]. by rewrite IH. Qed.

Lemma Forall_is_pointer (l : list (MessageValue body)) :
  Forall is_pointer l → ∃ ms, l = map Pointer ms.
Proof.
  induction 1 as [|[m|t] l Hp _ (ms & ->)]; [by exists []| |done].
  by exists (m :: ms).
Qed.

(** The codec of each message kind gives back what it wrote. *)
Hypothesis body_roundtrip :
  ∀ (k : kind) (b : body), decodeBody k (encodeBody k b) = Some b.

Lemma typedMessage_roundtrip (m : Message body) :
  accepted (Pointer m) →
  typedMessage_DecodeRLP decodeBody
    (Lst [encUint8 (Code m); encodeBody (msgKind m) (msgBody m)])
  = Ok m.
Proof using body_roundtrip.
  destruct m as [k b]. unfold accepted; simpl.
  intros [-> | [-> | ->]]; simpl; by rewrite body_roundtrip.
Qed.

Lemma evidences_roundtrip (ms : list (Message body)) :
  Forall accepted (map Pointer ms) →
  mapM (typedMessage_DecodeRLP decodeBody)
    (map (λ m, Lst [encUint8 (Code m);
                    encodeBody (msgKind m) (msgBody m)]) ms) = Ok ms.
Proof using body_roundtrip.
  induction ms as [|m ms IH]; [reflexivity|].
  intros [Hm Hms]%Forall_cons. cbn [map mapM].
  rewrite typedMessage_roundtrip by done.
  cbn [bind]. rewrite IH by done. reflexivity.
Qed.

(** A message of a kind outside the three is written but not read back:
    the proposal code is zero, hence the empty string. *)
Lemma typedMessage_proposal_refused (b : body) :
  bind (typedMessage_EncodeRLP encodeBody (Pointer (mkMessage KProposal b)))
    (typedMessage_DecodeRLP decodeBody)
  = Err ErrExpectedString.
Proof. reflexivity. Qed.


End Roundtrip.


(** *** What the decoders accept and refuse *)

Section Decoding.

Variable body : Type.
Variable encodeBody : kind → body → item.
Variable decodeBody : kind → item → option body.

(** What a successful typedMessage.DecodeRLP has read. *)
Lemma typedMessage_DecodeRLP_Ok (s : item) (m : Message body) :
  typedMessage_DecodeRLP decodeBody s = Ok m →
  ∃ b0 bs x,
    s = Lst [Str (b0 :: bs); x] ∧ kind_Code (msgKind m) = b0
    ∧ accepted (Pointer m) ∧ decodeBody (msgKind m) x = Some (msgBody m).
Proof.
  unfold typedMessage_DecodeRLP.
  destruct s as [?|[|[[|b0 bs]|?] rest]]; try done.
  assert (Hin : ∀ k, kind_Code k = b0 →
            k = KPrevote ∨ k = KPrecommit ∨ k = KLightProposal →
            match rest with
            | [] => Err ErrEOL
            | x :: rest' =>
              match decodeBody k x with
              | None => Err ErrMessage
              | Some p =>
                match rest' with
                | [] => Ok {| msgKind := k; msgBody := p |}
                | _ :: _ => Err ErrNotAtEOL
                end
              end
            end = Ok m →
            ∃ b1 bs' x, Lst (Str (b0 :: bs) :: rest) = Lst [Str (b1 :: bs'); x]
              ∧ kind_Code (msgKind m) = b1 ∧ accepted (Pointer m)
              ∧ decodeBody (msgKind m) x = Some (msgBody m)).
  { intros k Hk Hacc. destruct rest as [|x [|? ?]]; try done;
      destruct (decodeBody k x) as [p|] eqn:E; try done.
    intros [= <-]. exists b0, bs, x. by repeat split. }
  destruct (Byte.eqb b0 PrevoteCode) eqn:E1; simpl.
  { apply Byte.byte_dec_bl in E1. apply Hin; [by subst|by left]. }
  destruct (Byte.eqb b0 PrecommitCode) eqn:E2; simpl.
  { apply Byte.byte_dec_bl in E2. apply Hin; [by subst|right; by left]. }
  destruct (Byte.eqb b0 LightProposalCode) eqn:E3; simpl; [|done].
  apply Byte.byte_dec_bl in E3. apply Hin; [by subst|right; by right].
Qed.

(** What a successful Proof.DecodeRLP has read, and what it stores. *)
Lemma Proof_DecodeRLP_Ok (s : item) (p : Proof body) :
  Proof_DecodeRLP decodeBody s = Ok p →
  ∃ ty ru msg evs m ms,
    s = Lst [ty; ru; msg; Lst evs]
    ∧ decUint8 ty = Ok (Type_ p) ∧ decUint8 ru = Ok (Rule p)
    ∧ typedMessage_DecodeRLP decodeBody msg = Ok m
    ∧ Message_ p = TypedMessage (Pointer m)
    ∧ mapM (typedMessage_DecodeRLP decodeBody) evs = Ok ms
    ∧ Evidences p = map (λ m, TypedMessage (Pointer m)) ms.
Proof.
  unfold Proof_DecodeRLP.
  destruct s as [?|[|ty [|ru [|msg [|[?|evs] [|? ?]]]]]]; try done;
    destruct (decUint8 ty) as [ty'|] eqn:E1; simpl; try done;
    destruct (decUint8 ru) as [ru'|] eqn:E2; simpl; try done;
    destruct (typedMessage_DecodeRLP decodeBody msg) as [msg'|] eqn:E3;
    simpl; try done.
  - destruct (mapM _ evs) as [evs'|] eqn:E4; simpl; [|done].
    intros [= <-]. by exists ty, ru, msg, evs, msg', evs'.
  - by destruct (mapM _ evs).
Qed.

(** X13: whatever typedMessage.DecodeRLP returns is a prevote, a precommit
    or a light proposal, of the kind that the first byte of the code
    string names; a Proof that Proof.DecodeRLP returns has such a message
    and only such evidences, never a proposal. *)
Theorem decoded_messages_are_of_accepted_kinds (s : item) (p : Proof body) :
  Proof_DecodeRLP decodeBody s = Ok p →
  accepted (Message_ p) ∧ Forall accepted (Evidences p).
Proof.
  intros (ty & ru & msg & evs & m & ms & _ & _ & _ & Hm & -> & He & ->)
    %Proof_DecodeRLP_Ok.
  split.
  - by apply typedMessage_DecodeRLP_Ok in Hm as (? & ? & ? & _ & _ & ? & _).
  - apply mapM_Ok_Forall2 in He.
    induction He as [|e m' evs ms Hd _ IH]; constructor; [|done].
    by apply typedMessage_DecodeRLP_Ok in Hd as (? & ? & ? & _ & _ & ? & _).
Qed.

(** X14: Proof.DecodeRLP reads a Proof only from a list of exactly four
    values, the last one a list, and returns one evidence per value of
    that list, in the order of the wire: each evidence is the typedMessage
    that typedMessage.DecodeRLP filled for the value at its position. *)
Theorem Proof_DecodeRLP_keeps_evidence_order (s : item) (p : Proof body) :
  Proof_DecodeRLP decodeBody s = Ok p →
  ∃ ty ru msg evs,
    s = Lst [ty; ru; msg; Lst evs]
    ∧ length (Evidences p) = length evs
    ∧ Forall2 (λ e v, ∃ m, typedMessage_DecodeRLP decodeBody e = Ok m
                           ∧ v = TypedMessage (Pointer m))
        evs (Evidences p).
Proof.
  intros (ty & ru & msg & evs & m & ms & -> & _ & _ & _ & _ & He & E)
    %Proof_DecodeRLP_Ok.
  apply mapM_Ok_Forall2 in He.
  exists ty, ru, msg, evs. split; [done|]. rewrite E. split.
  - rewrite length_map. symmetry. by eapply Forall2_length.
  - clear E. induction He as [|e m' evs ms Hd _ IH]; constructor; [|done].
    by exists m'.
Qed.

(** X15: one evidence that typedMessage.DecodeRLP refuses makes
    Proof.DecodeRLP refuse the whole Proof, wherever it stands in the
    list. *)
Theorem Proof_DecodeRLP_refuses_bad_evidence (ty ru msg e : item)
    (evs : list item) (err : error) :
  e ∈ evs →
  typedMessage_DecodeRLP decodeBody e = Err err →
  ∃ err', Proof_DecodeRLP decodeBody (Lst [ty; ru; msg; Lst evs]) = Err err'.
Proof.
  intros He Hd. unfold Proof_DecodeRLP.
  destruct (decUint8 ty); simpl; [|by eexists].
  destruct (decUint8 ru); simpl; [|by eexists].
  destruct (typedMessage_DecodeRLP decodeBody msg); simpl; [|by eexists].
  destruct (mapM_Err _ _ _ _ He Hd) as [err' ->]. simpl. by eexists.
Qed.

(** X16: typedMessage.DecodeRLP looks at the first byte of the code string
    only: further bytes of the string change nothing. A code string whose
    first byte is not the prevote, precommit or light-proposal code is
    refused with errUnexpectedCode, before the message is looked at, and
    the empty code string with ErrExpectedString. *)
Theorem typedMessage_DecodeRLP_reads_first_code_byte (b0 : byte)
    (bs : list byte) (rest : list item) :
  typedMessage_DecodeRLP decodeBody (Lst (Str (b0 :: bs) :: rest))
  = typedMessage_DecodeRLP decodeBody (Lst (Str [b0] :: rest))
  ∧ (b0 ≠ PrevoteCode → b0 ≠ PrecommitCode → b0 ≠ LightProposalCode →
     typedMessage_DecodeRLP decodeBody (Lst (Str (b0 :: bs) :: rest))
     = Err errUnexpectedCode)
  ∧ typedMessage_DecodeRLP decodeBody (Lst (Str [] :: rest))
    = Err ErrExpectedString.
Proof.
  split; [reflexivity|]. split; [|reflexivity].
  intros H1 H2 H3. unfold typedMessage_DecodeRLP.
  destruct (Byte.eqb b0 PrevoteCode) eqn:E1;
    [by apply Byte.byte_dec_bl in E1|].
  destruct (Byte.eqb b0 PrecommitCode) eqn:E2;
    [by apply Byte.byte_dec_bl in E2|].
  destruct (Byte.eqb b0 LightProposalCode) eqn:E3;
    [by apply Byte.byte_dec_bl in E3|].
  reflexivity.
Qed.


End Decoding.

Lemma decoded_messages_are_of_accepted_kinds_witness :
  accepted (Message_ proofPN_decoded)
  ∧ Forall accepted (Evidences proofPN_decoded).
Proof.
  apply (decoded_messages_are_of_accepted_kinds (list byte) bytesDecode
           wireProofPN proofPN_decoded).
  reflexivity.
Defined.

Lemma Proof_DecodeRLP_keeps_evidence_order_witness :
  ∃ ty ru msg evs,
    wireProofPN = Lst [ty; ru; msg; Lst evs]
    ∧ length (Evidences proofPN_decoded) = length evs
    ∧ Forall2 (λ e v, ∃ m, typedMessage_DecodeRLP bytesDecode e = Ok m
                           ∧ v = TypedMessage (Pointer m))
        evs (Evidences proofPN_decoded).
Proof.
  apply (Proof_DecodeRLP_keeps_evidence_order (list byte) bytesDecode
           wireProofPN proofPN_decoded).
  reflexivity.
Defined.

Lemma Proof_DecodeRLP_refuses_bad_evidence_witness :
  ∃ err', Proof_DecodeRLP bytesDecode
            (Lst [Str []; Str []; wirePrevote;
                  Lst [wirePrevote; wireProposalEvidence]]) = Err err'.
Proof.
  apply (Proof_DecodeRLP_refuses_bad_evidence (list byte) bytesDecode
           (Str []) (Str []) wirePrevote wireProposalEvidence
           [wirePrevote; wireProposalEvidence] errUnexpectedCode).
  - apply list_elem_of_In. simpl. right. left. reflexivity.
  - reflexivity.
Defined.

End AccountabilityProofs.

(** ** The core *)

Module CoreProofs.
Import Core.

Local Open Scope Z_scope.

Lemma bind_Done {A B : Type} (a : A) (f : A → outcome B) :
  (Done a ≫= f) = f a.
Proof. reflexivity. Qed.

Section Frames.

Context {Header MC : Type}.
Context `{!MsgCacheOps Header MC} `{!Collaborators Header}.

Implicit Types c : core Header MC.

Lemma frame_refl c : frame c c.
Proof.
  split; try reflexivity. exists []. split; [by rewrite app_nil_r|constructor].
Qed.

Lemma frame_trans c1 c2 c3 : frame c1 c2 → frame c2 c3 → frame c1 c3.
Proof.
  intros [Hm1 Hh1 Hr1 (l1 & Hc1 & Hq1)] [Hm2 Hh2 Hr2 (l2 & Hc2 & Hq2)].
  split; try congruence.
  exists (l1 ++ l2). split.
  - by rewrite Hc2, Hc1, app_assoc.
  - by apply Forall_app.
Qed.

Lemma frame_record (k : Call) c : quiet k → frame c (record k c).
Proof.
  intros Hk. split; try reflexivity.
  exists [k]. split; [reflexivity|]. by apply Forall_cons_2.
Qed.

Lemma frame_set_step (s : Step) c : frame c (set_step s c).
Proof. split; try reflexivity. exists []. by rewrite app_nil_r. Qed.

Lemma frame_set_locked v r c : frame c (set_locked v r c).
Proof. split; try reflexivity. exists []. by rewrite app_nil_r. Qed.

Lemma frame_set_valid v r c : frame c (set_valid v r c).
Proof. split; try reflexivity. exists []. by rewrite app_nil_r. Qed.

Lemma frame_setHeight h c : frame c (setHeight h c).
Proof. split; try reflexivity. exists []. by rewrite app_nil_r. Qed.

Lemma frame_sendPrevote b c : frame c (sendPrevote b c).
Proof. by apply frame_record. Qed.

Lemma frame_sendPrecommit b c : frame c (sendPrecommit b c).
Proof. by apply frame_record. Qed.

Lemma frame_scheduleTimeout t d r h f c : frame c (scheduleTimeout t d r h f c).
Proof. by apply frame_record. Qed.

Lemma frame_commit b r c : frame c (commit b r c).
Proof. by apply frame_record. Qed.

(** Line 22 ends in a panic, or leaves the state alone, or sends one
    prevote. *)
Lemma line22_cases cm r t c :
  line22 cm r t c = Panic ∨ line22 cm r t c = Done c
  ∨ ∃ b, line22 cm r t c = Done (sendPrevote b c).
Proof.
  unfold line22. destruct (upon22 cm r t c); [|by right; left].
  destruct (isValid _ _ && _); simpl; [right; right; by eexists|].
  destruct (lockedValue c); simpl; [|by left].
  destruct (_ =? _)%N; right; right; by eexists.
Qed.

Lemma line28_cases p r t lh s c :
  line28 p r t lh s c = Panic ∨ line28 p r t lh s c = Done c
  ∨ ∃ b, line28 p r t lh s c = Done (sendPrevote b c).
Proof.
  unfold line28. destruct p as [p|]; [|by right; left].
  destruct (upon28 p r t lh s c); [|by right; left].
  destruct (isValid _ _); simpl; [|right; right; by eexists].
  destruct (_ <=? _); simpl; [right; right; by eexists|].
  destruct (lockedValue c); simpl; [|by left].
  destruct (_ =? _)%N; right; right; by eexists.
Qed.

Lemma line22_frame cm r t c c' : line22 cm r t c = Done c' → frame c c'.
Proof.
  destruct (line22_cases cm r t c) as [E|[E|[b E]]]; rewrite E;
    intros [= <-]; [apply frame_refl|apply frame_sendPrevote].
Qed.

Lemma line28_frame p r t lh s c c' : line28 p r t lh s c = Done c' → frame c c'.
Proof.
  destruct (line28_cases p r t lh s c) as [E|[E|[b E]]]; rewrite E;
    intros [= <-]; [apply frame_refl|apply frame_sendPrevote].
Qed.

Lemma line34_frame cm r h t lh s c : frame c (line34 cm r h t lh s c).
Proof.
  unfold line34. destruct (_ && _);
    [apply frame_scheduleTimeout|apply frame_refl].
Qed.

Lemma line36_frame p r t lh s c : frame c (line36 p r t lh s c).1.
Proof.
  unfold line36. destruct p as [p|]; [|apply frame_refl].
  destruct (_ && _); [|apply frame_refl].
  destruct (Step_eqb s prevote); simpl.
  - eapply frame_trans; [apply frame_set_locked|].
    eapply frame_trans; [apply frame_sendPrecommit|].
    eapply frame_trans; [apply frame_set_step|apply frame_set_valid].
  - apply frame_set_valid.
Qed.

Lemma line44_frame cm r t lh s c : frame c (line44 cm r t lh s c).1.
Proof.
  unfold line44. destruct (_ && _); simpl; [|apply frame_refl].
  eapply frame_trans; [apply frame_sendPrecommit|apply frame_set_step].
Qed.

Lemma line47_frame cm r h t lh c : frame c (line47 cm r h t lh c).
Proof.
  unfold line47. destruct (_ && _);
    [apply frame_scheduleTimeout|apply frame_refl].
Qed.

Lemma line49_frame p t lh c c' : line49 p t lh c = Done c' → frame c c'.
Proof.
  unfold line49. destruct p as [p|]; [|intros [= <-]; apply frame_refl].
  destruct (_ && _); [|intros [= <-]; apply frame_refl].
  destruct (isValid _ _); [|intros [= <-]; apply frame_refl].
  destruct (value _ _) as [block|]; [|done]. intros [= <-].
  eapply frame_trans; [apply frame_commit|].
  eapply frame_trans; [apply frame_setHeight|].
  eapply frame_trans; [apply frame_set_locked|apply frame_set_valid].
Qed.

Lemma line55_id cm r lh c : line55 cm r lh c = c.
Proof. unfold line55. by destruct (_ && _). Qed.

(** checkUponConditions, when it returns, has not touched the cache, has
    not changed the round, and has neither started a round nor verified a
    proposal. *)
Lemma checkUponConditions_frame c cm c' :
  checkUponConditions c cm = Done c' → frame c c'.
Proof.
  unfold checkUponConditions.
  destruct (line22 _ _ _ c) as [c1|] eqn:E1; [|done]. simpl.
  destruct (line28 _ _ _ _ _ c1) as [c2|] eqn:E2; [|done]. simpl.
  pose proof (line34_frame cm (round c) (height c) (cm_msgType cm)
                (lastHeader c) (step c) c2) as F3.
  set (c3 := line34 _ _ _ _ _ _ c2) in *.
  pose proof (line36_frame (matchingProposal (msgCache c) cm) (round c)
                (cm_msgType cm) (lastHeader c) (step c) c3) as F4.
  destruct (line36 _ _ _ _ _ c3) as [c4 s4]. simpl in F4.
  pose proof (line44_frame cm (round c) (cm_msgType cm) (lastHeader c) s4 c4)
    as F5.
  destruct (line44 _ _ _ _ _ c4) as [c5 s5]. simpl in F5.
  pose proof (line47_frame cm (round c) (height c) (cm_msgType cm)
                (lastHeader c) c5) as F6.
  set (c6 := line47 _ _ _ _ _ c5) in *.
  destruct (line49 _ _ _ c6) as [c7|] eqn:E7; [|done]. simpl.
  rewrite line55_id. intros [= <-].
  apply line22_frame in E1. apply line28_frame in E2. apply line49_frame in E7.
  repeat (eapply frame_trans; [eassumption|]). apply frame_refl.
Qed.

(** *** Line 22 *)

(** What line 22 decides when a block is locked: the prevote is for the
    value exactly when the value is valid and nothing is locked, or the
    locked block has the hash of the value. *)
Lemma line22_decision c cm (b : Block) :
  upon22 cm (round c) (cm_msgType cm) c = true →
  lockedValue c = Some b →
  line22 cm (round c) (cm_msgType cm) c
  = Done (sendPrevote
            (negb (isValid (msgCache c) (cm_value cm) && (lockedRound c =? -1)
                   || (BlockHash b =? cm_value cm)%N)) c).
Proof.
  intros Hu Hb. unfold line22. rewrite Hu, Hb.
  destruct (isValid _ _ && _); simpl; [reflexivity|].
  by destruct (_ =? _)%N.
Qed.

(** The code and the rule as specified agree when the locked block is
    itself marked valid. *)
Lemma line22_agrees_when_lock_is_valid c cm (b : Block) :
  upon22 cm (round c) (cm_msgType cm) c = true →
  lockedValue c = Some b →
  isValid (msgCache c) (BlockHash b) = true →
  line22 cm (round c) (cm_msgType cm) c
  = Done (sendPrevote (negb (spec_L22_prevote_for_value c cm)) c).
Proof.
  intros Hu Hb Hv. rewrite (line22_decision c cm b Hu Hb).
  unfold spec_L22_prevote_for_value. rewrite Hb.
  destruct (BlockHash b =? cm_value cm)%N eqn:E.
  - apply N.eqb_eq in E. rewrite <- E, Hv.
    by destruct (lockedRound c =? -1).
  - by rewrite !orb_false_r.
Qed.

(** With nothing locked, line 22 dereferences the nil block unless the
    value is valid and the locked round is -1. *)
Lemma line22_nil_lock c cm :
  upon22 cm (round c) (cm_msgType cm) c = true →
  lockedValue c = None →
  isValid (msgCache c) (cm_value cm) && (lockedRound c =? -1) = false →
  line22 cm (round c) (cm_msgType cm) c = Panic.
Proof. intros Hu Hb Hv. unfold line22. by rewrite Hu, Hv, Hb. Qed.

(** *** Lines 22 and 28 without a nil dereference *)

Lemma line22_safe c cm :
  derefs_nil_lock c cm = false →
  line22 cm (round c) (cm_msgType cm) c = Done c
  ∨ ∃ b, line22 cm (round c) (cm_msgType cm) c = Done (sendPrevote b c).
Proof.
  unfold derefs_nil_lock, line22_reads_lock, line22. intros Hs.
  destruct (upon22 _ _ _ c); [|by left].
  destruct (isValid _ _ && _); simpl; [right; by eexists|].
  destruct (lockedValue c); simpl; [|done].
  destruct (_ =? _)%N; right; by eexists.
Qed.

Lemma line28_safe c cm c1 :
  derefs_nil_lock c cm = false →
  c1 = c ∨ (∃ b, c1 = sendPrevote b c) →
  ∃ c2, line28 (matchingProposal (msgCache c) cm) (round c) (cm_msgType cm)
          (lastHeader c) (step c) c1 = Done c2.
Proof.
  unfold derefs_nil_lock, line28_reads_lock, line28. intros Hs Hc1.
  assert (E : msgCache c1 = msgCache c ∧ lockedRound c1 = lockedRound c
              ∧ lockedValue c1 = lockedValue c)
    by (destruct Hc1 as [->|[b ->]]; done).
  destruct E as (Em & Er & Ev).
  destruct (matchingProposal _ _) as [p|]; [|by eexists].
  assert (Eu : upon28 p (round c) (cm_msgType cm) (lastHeader c) (step c) c1
               = upon28 p (round c) (cm_msgType cm) (lastHeader c) (step c) c)
    by (unfold upon28; by rewrite Em).
  rewrite Eu, Em, Er, Ev.
  destruct (upon28 _ _ _ _ _ c); [|by eexists].
  destruct (isValid _ _); simpl; [|by eexists].
  destruct (_ <=? _); simpl; [by eexists|].
  destruct (lockedValue c); simpl.
  - destruct (_ =? _)%N; by eexists.
  - simpl in Hs. rewrite orb_true_r in Hs. done.
Qed.

(** *** Line 34 and the expiry of its timer *)

Lemma line34_schedules cm r h t lh s c :
  in_ t [msgPrevote] = true → cm_round cm = r →
  prevoteQuorum (msgCache c) None r lh = true →
  s = prevote → line34Executed c = false →
  line34 cm r h t lh s c
  = scheduleTimeout prevoteTimeout (timeoutPrevote r) r h onTimeoutPrecommit c.
Proof.
  intros Ht Hr Hq -> Hl. unfold line34.
  by rewrite Ht, Hr, Z.eqb_refl, Hq, Hl.
Qed.

(** A timer whose callback is onTimeoutPrecommit ends, in the same view,
    in the start of the next round; one whose callback is onTimeoutPrevote
    in a precommit for nil. *)
Lemma expire_onTimeoutPrecommit t d c :
  expire (CallScheduleTimeout t d (round c) (height c) onTimeoutPrecommit) c
  = startRound (round c + 1) c.
Proof.
  unfold expire, runCallback, mainEventLoop_timeout, handleTimeoutPrecommit,
    sameView; simpl.
  by rewrite !Z.eqb_refl.
Qed.

Lemma expire_onTimeoutPrevote t d c :
  expire (CallScheduleTimeout t d (round c) (height c) onTimeoutPrevote) c
  = set_step precommit (sendPrecommit voteForNil c).
Proof.
  unfold expire, runCallback, mainEventLoop_timeout, handleTimeoutPrevote,
    sameView; simpl.
  by rewrite !Z.eqb_refl.
Qed.

(** *** Line 49 *)

(** X29: upon a precommit quorum for a valid value at any round
    of the current height (seen on a proposal or a precommit that has a
    matching proposal, the block of the value being in the cache, and
    lines 22 and 28 not dereferencing a nil locked value on the way),
    checkUponConditions commits the block at the round of the proposal,
    sets the height to the number of the block plus one and resets the
    locked and valid state (rounds -1, values nil); the commit is its last
    call, the round is left as it is and no round is started. *)
Theorem line49_commits_and_resets c cm (p : proposalSummary) (block : Block) :
  in_ (cm_msgType cm) [msgProposal; msgPrecommit] = true →
  matchingProposal (msgCache c) cm = Some p →
  precommitQuorum (msgCache c) (Some (p_value p)) (p_round p) (lastHeader c)
  = true →
  isValid (msgCache c) (p_value p) = true →
  value (msgCache c) (p_value p) = Some block →
  derefs_nil_lock c cm = false →
  ∃ c', checkUponConditions c cm = Done c'
    ∧ (∃ l, calls c' = calls c ++ l ++ [CallCommit block (p_round p)])
    ∧ height c' = Number block + 1
    ∧ lockedRound c' = -1 ∧ lockedValue c' = None
    ∧ validRound c' = -1 ∧ validValue c' = None
    ∧ round c' = round c
    ∧ (∀ r, In (CallStartRound r) (calls c') → In (CallStartRound r) (calls c)).
Proof.
  intros Ht Hp Hq Hv Hb Hs. unfold checkUponConditions. rewrite Hp.
  assert (∃ c1, line22 cm (round c) (cm_msgType cm) c = Done c1
                ∧ (c1 = c ∨ ∃ b, c1 = sendPrevote b c)) as (c1 & E1 & Hc1).
  { destruct (line22_safe c cm Hs) as [E|[b E]]; eexists; split; eauto. }
  rewrite E1, bind_Done.
  destruct (line28_safe c cm c1 Hs Hc1) as [c2 E2].
  rewrite Hp in E2. rewrite E2, bind_Done.
  pose proof (line34_frame cm (round c) (height c) (cm_msgType cm)
                (lastHeader c) (step c) c2) as F3.
  set (c3 := line34 _ _ _ _ _ _ c2) in *.
  pose proof (line36_frame (Some p) (round c) (cm_msgType cm) (lastHeader c)
                (step c) c3) as F4.
  destruct (line36 _ _ _ _ _ c3) as [c4 s4]. simpl in F4.
  pose proof (line44_frame cm (round c) (cm_msgType cm) (lastHeader c) s4 c4)
    as F5.
  destruct (line44 _ _ _ _ _ c4) as [c5 s5]. simpl in F5.
  pose proof (line47_frame cm (round c) (height c) (cm_msgType cm)
                (lastHeader c) c5) as F6.
  set (c6 := line47 _ _ _ _ _ c5) in *.
  assert (F : frame c c6).
  { apply line22_frame in E1. apply line28_frame in E2.
    repeat (eapply frame_trans; [eassumption|]). apply frame_refl. }
  destruct F as [Fm Fh Fr (l & Fc & Fq)].
  unfold line49. rewrite Ht, Fm, Hq, Hv, Hb; simpl.
  eexists. split; [reflexivity|]. rewrite line55_id; simpl.
  repeat split; try done.
  - exists l. by rewrite Fc, app_assoc.
  - intros r. rewrite Fc, !in_app_iff. intros [[H1|H2]|H3]; [done| |].
    + rewrite Forall_forall in Fq. apply list_elem_of_In, Fq in H2.
      destruct H2 as [H2 _]. done.
    + simpl in H3. by destruct H3.
Qed.

(** *** handleCurrentHeightMessage *)

(** handleCurrentHeightMessage never calls VerifyProposal, whatever the
    message. *)
Lemma handleCurrentHeightMessage_never_verifies c (m : Message) cm c' e :
  handleCurrentHeightMessage c m cm = Done (c', e) →
  ∀ b, In (CallVerifyProposal b) (calls c') → In (CallVerifyProposal b) (calls c).
Proof.
  unfold handleCurrentHeightMessage. intros Hh b.
  assert (Hfr : ∀ c0, calls c0 = calls c → frame c0 c'
                → In (CallVerifyProposal b) (calls c')
                → In (CallVerifyProposal b) (calls c)).
  { intros c0 E0 [_ _ _ (l & Fc & Fq)]. rewrite Fc, E0, in_app_iff.
    intros [H1|H2]; [done|].
    rewrite Forall_forall in Fq. apply list_elem_of_In, Fq in H2.
    destruct H2 as [_ H2]. done. }
  repeat case_match; simplify_eq; try done.
  all: match goal with
       | H : (checkUponConditions ?x ?y ≫= _) = _ |- _ =>
         destruct (checkUponConditions x y) as [cz|] eqn:E; [|done];
         rewrite bind_Done in H; simplify_eq;
         apply checkUponConditions_frame in E
       end.
  all: eapply Hfr; [|eassumption]; reflexivity.
Qed.

(** A proposal leaves the cache as it was: its value is not marked
    valid. *)
Lemma handleCurrentHeightMessage_proposal_cache c (m : Message) cm c' e :
  Code m = msgProposal →
  handleCurrentHeightMessage c m cm = Done (c', e) →
  msgCache c' = msgCache c.
Proof.
  unfold handleCurrentHeightMessage. intros Hc Hh. rewrite Hc in Hh.
  change (msgProposal =? msgProposal) with true in Hh.
  repeat case_match; simplify_eq; try done.
  match goal with
  | H : (checkUponConditions ?x ?y ≫= _) = _ |- _ =>
    destruct (checkUponConditions x y) as [cz|] eqn:E; [|done];
    rewrite bind_Done in H; simplify_eq;
    apply checkUponConditions_frame in E
  end.
  by destruct E.
Qed.

(** *** handleMsg *)

(** C10: for every payload whose Keccak256 hash is in the message cache
    already, handleMsg returns nil and leaves the core as it was: no call
    is recorded (the payload is not decoded), the message cache is the
    same and so is the round state. *)
Theorem handleMsg_cached c (payload : list byte) :
  msgCache_Message (msgCache c) (Keccak256 payload) ≠ None →
  handleMsg c payload = Done (c, None).
Proof.
  intros Hc. unfold handleMsg.
  by destruct (msgCache_Message (msgCache c) (Keccak256 payload)).
Qed.

(** A payload that is not in the cache is decoded. *)
Lemma handleMsg_fresh_decodes c (payload : list byte) c' e :
  msgCache_Message (msgCache c) (Keccak256 payload) = None →
  handleMsg c payload = Done (c', e) →
  In (CallDecodeBytes payload) (calls c').
Proof.
  intros Hc. unfold handleMsg. rewrite Hc.
  assert (Hin : ∀ c0 c1 : core Header MC,
            calls c0 = calls c ++ [CallDecodeBytes payload] → frame c0 c1 →
            In (CallDecodeBytes payload) (calls c1)).
  { intros c0 c1 E0 [_ _ _ (l & Fc & _)].
    rewrite Fc, E0, !in_app_iff. left. right. by left. }
  assert (Hcur : ∀ (c0 : core Header MC) m cm,
            calls c0 = calls c ++ [CallDecodeBytes payload] →
            handleCurrentHeightMessage c0 m cm = Done (c', e) →
            In (CallDecodeBytes payload) (calls c')).
  { intros c0 m cm E0. unfold handleCurrentHeightMessage. intros Hh.
    repeat case_match; simplify_eq; try (rewrite E0, in_app_iff; right; by left).
    all: match goal with
         | H : (checkUponConditions ?x ?y ≫= _) = _ |- _ =>
           destruct (checkUponConditions x y) as [cz|] eqn:E; [|done];
           rewrite bind_Done in H; simplify_eq;
           apply checkUponConditions_frame in E
         end.
    all: eapply Hin; [|eassumption]; done. }
  intros Hh.
  repeat case_match; simplify_eq;
    try (simpl; rewrite in_app_iff; right; by left).
  all: try (eapply Hcur; [|eassumption]; done).
  destruct (Codec.ProposalBlock p) as [blk|]; [|done].
  unfold Block_Hash in Hh. rewrite bind_Done in Hh.
  repeat case_match; simplify_eq;
    try (simpl; rewrite in_app_iff; right; by left).
  eapply Hcur; [|eassumption]; done.
Qed.

End Frames.

(** *** The handlers on concrete states *)

(** C1, the code at the failing input: in round 1, step propose, locked on
    the block of hash 7, a proposal for value 7 with valid round -1
    arrives and the value is not valid; line 22 applies and the prevote is
    sent for the value. With nothing locked, the same proposal ends the
    handler in a nil dereference. *)
Theorem line22_prevotes_value_that_is_not_valid :
  upon22 proposal22 (round core22) (cm_msgType proposal22) core22 = true
  ∧ isValid (msgCache core22) (cm_value proposal22) = false
  ∧ spec_L22_prevote_for_value core22 proposal22 = false
  ∧ checkUponConditions core22 proposal22
    = Done (sendPrevote voteForValue core22)
  ∧ checkUponConditions core22_unlocked proposal22 = Panic.
Proof.
  split; [reflexivity|]. split; [reflexivity|]. split; [reflexivity|]. split.
  - unfold checkUponConditions.
    rewrite (line22_decision core22 proposal22 block7) by reflexivity.
    vm_compute. reflexivity.
  - unfold checkUponConditions.
    rewrite (line22_nil_lock core22_unlocked proposal22) by reflexivity.
    reflexivity.
Qed.

(** C3, the code at the failing input: in round 1 of height 10, step
    prevote, latch unset, a prevote arrives and the cache holds a prevote
    quorum for the round. The prevote timer is scheduled for (10, 1) with
    the callback onTimeoutPrecommit; at its expiry the event loop runs the
    precommit-timeout handler, which starts round 2: the step is propose
    and no precommit is sent. With onTimeoutPrevote the node would send a
    precommit for nil and move to step precommit. *)
Theorem line34_expiry_starts_the_next_round :
  checkUponConditions core34 prevote34 = Done (record scheduled34 core34)
  ∧ expire scheduled34 (record scheduled34 core34)
    = startRound 2 (record scheduled34 core34)
  ∧ calls (expire scheduled34 (record scheduled34 core34))
    = [scheduled34; CallStartRound 2]
  ∧ step (expire scheduled34 (record scheduled34 core34)) = propose
  ∧ round (expire scheduled34 (record scheduled34 core34)) = 2
  ∧ expire (CallScheduleTimeout prevoteTimeout (timeoutPrevote 1) 1 10
              onTimeoutPrevote) (record scheduled34 core34)
    = set_step precommit
        (sendPrecommit voteForNil (record scheduled34 core34)).
Proof.
  assert (E : expire scheduled34 (record scheduled34 core34)
              = startRound 2 (record scheduled34 core34))
    by apply (expire_onTimeoutPrecommit prevoteTimeout (timeoutPrevote 1)
                (record scheduled34 core34)).
  split; [vm_compute; reflexivity|]. split; [exact E|].
  rewrite E. do 3 (split; [reflexivity|]).
  apply (expire_onTimeoutPrevote prevoteTimeout (timeoutPrevote 1)
           (record scheduled34 core34)).
Qed.

(** C2, the code at the failing input: a precommit for the valid value 7
    arrives in round 1 of height 10, step precommit, and the cache holds a
    precommit quorum for it. The block is committed, the height becomes 11
    and the locked and valid state is reset; the commit is the only call.
    No round is started, neither round 0 nor another: the round is still
    1 and the step still precommit, where start_round(0) would leave round
    0 and step propose. *)
Theorem line49_starts_no_round :
  precommitQuorum (msgCache core49) (Some 7%N) 1 tt = true
  ∧ isValid (msgCache core49) 7%N = true
  ∧ checkUponConditions core49 precommit49 = Done core49_after
  ∧ calls core49_after = [CallCommit block7 1]
  ∧ height core49_after = 11
  ∧ lockedRound core49_after = -1 ∧ lockedValue core49_after = None
  ∧ validRound core49_after = -1 ∧ validValue core49_after = None
  ∧ (∀ r, ¬ In (CallStartRound r) (calls core49_after))
  ∧ round core49_after = 1
  ∧ step core49_after = precommit
  ∧ round (startRound 0 core49_after) = 0
  ∧ step (startRound 0 core49_after) = propose.
Proof.
  split; [reflexivity|]. split; [reflexivity|].
  split; [vm_compute; reflexivity|].
  do 6 (split; [reflexivity|]).
  split; [|repeat split; reflexivity].
  intros r. simpl. intros [H|[]]. discriminate H.
Qed.

Lemma line49_commits_and_resets_witness :
  ∃ c', checkUponConditions core49 precommit49 = Done c'
    ∧ (∃ l, calls c' = calls core49 ++ l ++ [CallCommit block7 1])
    ∧ height c' = 11
    ∧ lockedRound c' = -1 ∧ lockedValue c' = None
    ∧ validRound c' = -1 ∧ validValue c' = None
    ∧ round c' = 1
    ∧ (∀ r, In (CallStartRound r) (calls c')
            → In (CallStartRound r) (calls core49)).
Proof.
  apply (line49_commits_and_resets core49 precommit49
           (mkProposalSummary 1 7%N (-1)) block7); reflexivity.
Defined.

(** C4, the code at the failing input: a proposal for value 7 from the
    proposer of round 1 of height 10, arriving in step propose at a node
    locked on another block. The handler returns nil; VerifyProposal has
    not been called (not once), the value is not marked valid, and the
    prevote is for nil. *)
Theorem proposal_of_the_proposer_is_not_verified :
  Code message22 = msgProposal
  ∧ isProposerMsg tt (height core22_block8) (cm_round proposal22)
      (Address message22) = true
  ∧ handleCurrentHeightMessage core22_block8 message22 proposal22
    = Done (sendPrevote voteForNil core22_block8, None)
  ∧ List.filter isVerifyProposal
      (calls (sendPrevote voteForNil core22_block8)) = []
  ∧ isValid (msgCache (sendPrevote voteForNil core22_block8))
      (cm_value proposal22) = false.
Proof.
  split; [reflexivity|]. split; [reflexivity|].
  split; [vm_compute; reflexivity|]. split; reflexivity.
Qed.

Lemma handleMsg_cached_witness :
  msgCache_Message (msgCache core10) (Keccak256 payload10) ≠ None
  ∧ handleMsg core10 payload10 = Done (core10, None).
Proof.
  assert (Hc : msgCache_Message (msgCache core10) (Keccak256 payload10) ≠ None)
    by (vm_compute; discriminate).
  split; [exact Hc|]. exact (handleMsg_cached core10 payload10 Hc).
Defined.

(** *** Relations that the handlers keep *)

Section Upon.

Context {Header MC : Type}.
Context `{!MsgCacheOps Header MC} `{!Collaborators Header}.

Implicit Types c : core Header MC.

Section Rel.

(** A relation between the state before and after, closed under the
    writes that the lines of checkUponConditions make for round [r] and
    height [h]. *)
Variable R : core Header MC → core Header MC → Prop.
Variables r h : Z.
Hypothesis R_refl : ∀ c, R c c.
Hypothesis R_trans : ∀ a b c, R a b → R b c → R a c.
Hypothesis R_record : ∀ k c, upon_call r h k → R c (record k c).
Hypothesis R_set_step : ∀ s c, R c (set_step s c).
Hypothesis R_set_locked : ∀ v x c, R c (set_locked v x c).
Hypothesis R_set_valid : ∀ v x c, R c (set_valid v x c).
Hypothesis R_setHeight : ∀ x c, R c (setHeight x c).

Lemma line22_rel cm t c c' : line22 cm r t c = Done c' → R c c'.
Proof using R_refl R_record.
  destruct (line22_cases cm r t c) as [E|[E|[b E]]]; rewrite E;
    intros [= <-]; [apply R_refl|].
  apply R_record. left. by eexists.
Qed.

Lemma line28_rel p t lh s c c' : line28 p r t lh s c = Done c' → R c c'.
Proof using R_refl R_record.
  destruct (line28_cases p r t lh s c) as [E|[E|[b E]]]; rewrite E;
    intros [= <-]; [apply R_refl|].
  apply R_record. left. by eexists.
Qed.

Lemma line34_rel cm t lh s c : R c (line34 cm r h t lh s c).
Proof using R_refl R_record.
  unfold line34. destruct (_ && _); [|apply R_refl].
  apply R_record. right. right. by left.
Qed.

Lemma line36_rel p t lh s c : R c (line36 p r t lh s c).1.
Proof using R_refl R_trans R_record R_set_step R_set_locked R_set_valid.
  unfold line36. destruct p as [p|]; [|apply R_refl].
  destruct (_ && _); [|apply R_refl].
  destruct (Step_eqb s prevote); simpl; [|apply R_set_valid].
  eapply R_trans; [apply R_set_locked|].
  eapply R_trans; [apply R_record; right; by left|].
  eapply R_trans; [apply R_set_step|apply R_set_valid].
Qed.

Lemma line44_rel cm t lh s c : R c (line44 cm r t lh s c).1.
Proof using R_refl R_trans R_record R_set_step.
  unfold line44. destruct (_ && _); simpl; [|apply R_refl].
  eapply R_trans; [apply R_record; right; by left|apply R_set_step].
Qed.

Lemma line47_rel cm t lh c : R c (line47 cm r h t lh c).
Proof using R_refl R_record.
  unfold line47. destruct (_ && _); [|apply R_refl].
  apply R_record. right. right. right. by left.
Qed.

Lemma line49_rel p t lh c c' : line49 p t lh c = Done c' → R c c'.
Proof using R_refl R_trans R_record R_set_locked R_set_valid R_setHeight.
  unfold line49. destruct p as [p|]; [|intros [= <-]; apply R_refl].
  destruct (_ && _); [|intros [= <-]; apply R_refl].
  destruct (isValid _ _); [|intros [= <-]; apply R_refl].
  destruct (value _ _) as [block|]; [|done]. intros [= <-].
  eapply R_trans; [apply R_record; do 4 right; by do 2 eexists|].
  eapply R_trans; [apply R_setHeight|].
  eapply R_trans; [apply R_set_locked|apply R_set_valid].
Qed.

Lemma checkUponConditions_rel c cm c' :
  r = round c → h = height c →
  checkUponConditions c cm = Done c' → R c c'.
Proof using All.
  intros Hr Hh. unfold checkUponConditions. rewrite <- Hr, <- Hh.
  destruct (line22 _ _ _ c) as [c1|] eqn:E1; [|done]. rewrite bind_Done.
  destruct (line28 _ _ _ _ _ c1) as [c2|] eqn:E2; [|done]. rewrite bind_Done.
  pose proof (line34_rel cm (cm_msgType cm) (lastHeader c) (step c) c2) as F3.
  set (c3 := line34 _ _ _ _ _ _ c2) in *.
  pose proof (line36_rel (matchingProposal (msgCache c) cm) (cm_msgType cm)
                (lastHeader c) (step c) c3) as F4.
  destruct (line36 _ _ _ _ _ c3) as [c4 s4]. simpl in F4.
  pose proof (line44_rel cm (cm_msgType cm) (lastHeader c) s4 c4) as F5.
  destruct (line44 _ _ _ _ _ c4) as [c5 s5]. simpl in F5.
  pose proof (line47_rel cm (cm_msgType cm) (lastHeader c) c5) as F6.
  set (c6 := line47 _ _ _ _ _ c5) in *.
  destruct (line49 _ _ _ c6) as [c7|] eqn:E7; [|done]. rewrite bind_Done.
  rewrite line55_id. intros [= <-].
  apply line22_rel in E1. apply line28_rel in E2. apply line49_rel in E7.
  repeat (eapply R_trans; [eassumption|]). apply R_refl.
Qed.

End Rel.

(** The same for handleCurrentHeightMessage and handleMsg: a relation kept
    by checkUponConditions, by a write of the cache and by the record of
    the decoding is kept by the two handlers. *)
Lemma handleCurrentHeightMessage_rel
    (R : core Header MC → core Header MC → Prop) c (m : Message) cm c' e :
  (∀ c, R c c) → (∀ a b c, R a b → R b c → R a c) →
  (∀ mc c, R c (set_msgCache mc c)) →
  (∀ c cm c', checkUponConditions c cm = Done c' → R c c') →
  handleCurrentHeightMessage c m cm = Done (c', e) → R c c'.
Proof.
  intros Hrefl Htrans Hmc Hupon. unfold handleCurrentHeightMessage. intros Hh.
  repeat case_match; simplify_eq; try done.
  all: match goal with
       | H : (checkUponConditions ?x ?y ≫= _) = _ |- _ =>
         destruct (checkUponConditions x y) as [cz|] eqn:E; [|done];
         rewrite bind_Done in H; simplify_eq; apply Hupon in E
       end.
  - done.
  - eapply Htrans; [apply Hmc|exact E].
Qed.

Lemma handleMsg_rel
    (R : core Header MC → core Header MC → Prop) c (payload : list byte) c' e :
  (∀ c, R c c) → (∀ a b c, R a b → R b c → R a c) →
  (∀ c, R c (record (CallDecodeBytes payload) c)) →
  (∀ mc c, R c (set_msgCache mc c)) →
  (∀ c cm c', checkUponConditions c cm = Done c' → R c c') →
  handleMsg c payload = Done (c', e) → R c c'.
Proof.
  intros Hrefl Htrans Hdec Hmc Hupon. unfold handleMsg.
  assert (Hcur : ∀ (c0 : core Header MC) m cm,
            R c c0 → handleCurrentHeightMessage c0 m cm = Done (c', e) →
            R c c').
  { intros c0 m cm H0 Hh. eapply Htrans; [exact H0|].
    by eapply handleCurrentHeightMessage_rel. }
  intros Hh.
  repeat case_match; simplify_eq; try done; try apply Hdec.
  all: try (eapply Htrans; [apply Hdec|apply Hmc]).
  all: try (eapply Hcur; [|eassumption];
            eapply Htrans; [apply Hdec|apply Hmc]).
  destruct (Codec.ProposalBlock _) as [blk|]; [|done].
  unfold Block_Hash in Hh. rewrite bind_Done in Hh.
  repeat case_match; simplify_eq; try apply Hdec.
  - eapply Htrans; [apply Hdec|]. eapply Htrans; apply Hmc.
  - eapply Hcur; [|eassumption].
    eapply Htrans; [apply Hdec|]. eapply Htrans; apply Hmc.
Qed.

(** *** The calls of checkUponConditions *)

Lemma upon_call_cases (r h : Z) (k : Call) :
  upon_call r h k →
  isStartRound k = false ∧ isVerifyProposal k = false
  ∧ k ≠ CallSendPrecommit voteForNil
  ∧ (∀ t d r' h' f, k = CallScheduleTimeout t d r' h' f →
       r' = r ∧ h' = h ∧ f = onTimeoutPrecommit).
Proof.
  unfold voteForValue, voteForNil.
  intros [[b ->]|[->|[->|[->|(b & pr & ->)]]]]; repeat split; try done;
    congruence.
Qed.

(** X18: every call that checkUponConditions makes is one of five: a
    prevote, a precommit with voteForValue, the prevote timer or the
    precommit timer for the current round and height, both with the
    callback onTimeoutPrecommit, or a commit. So it never sends a
    precommit for nil, never starts a round and never verifies a proposal,
    and every timeout it schedules is for the round and height it was
    called in. *)
Theorem checkUponConditions_makes_five_calls c cm c' :
  checkUponConditions c cm = Done c' →
  ∃ l, calls c' = calls c ++ l
    ∧ Forall (upon_call (round c) (height c)) l
    ∧ ¬ In (CallSendPrecommit voteForNil) l
    ∧ (∀ t d r h f, In (CallScheduleTimeout t d r h f) l →
         r = round c ∧ h = height c ∧ f = onTimeoutPrecommit).
Proof using All.
  intros Hc.
  assert (∃ l, calls c' = calls c ++ l
               ∧ Forall (upon_call (round c) (height c)) l) as (l & El & Hl).
  { apply (checkUponConditions_rel
             (λ a b, ∃ l, calls b = calls a ++ l
                          ∧ Forall (upon_call (round c) (height c)) l)
             (round c) (height c)) with (cm := cm); try done.
    - intros a. exists []. by rewrite app_nil_r.
    - intros a b d (l1 & E1 & H1) (l2 & E2 & H2). exists (l1 ++ l2).
      split; [by rewrite E2, E1, app_assoc|by apply Forall_app].
    - intros k a Hk. exists [k]. split; [done|by apply Forall_cons_2].
    - intros s a. exists []. by rewrite app_nil_r.
    - intros v x a. exists []. by rewrite app_nil_r.
    - intros v x a. exists []. by rewrite app_nil_r.
    - intros x a. exists []. by rewrite app_nil_r. }
  exists l. split; [done|]. split; [done|]. rewrite Forall_forall in Hl. split.
  - intros Hin. apply list_elem_of_In, Hl, upon_call_cases in Hin.
    by destruct Hin as (_ & _ & Hn & _).
  - intros t d r h f Hin. apply list_elem_of_In, Hl, upon_call_cases in Hin.
    destruct Hin as (_ & _ & _ & Hs). by eapply Hs.
Qed.

Lemma line36_line44_precommits cm (p : option proposalSummary) (r t : Z)
    (lh : Header) (s : Step) c :
  ∃ l, calls (line44 cm r t lh (line36 p r t lh s c).2
                (line36 p r t lh s c).1).1 = calls c ++ l
    ∧ (l = [] ∨ l = [CallSendPrecommit voteForValue]).
Proof.
  unfold line36.
  assert (Hno : ∀ c0 : core Header MC,
            ∃ l, calls (line44 cm r t lh precommit c0).1 = calls c0 ++ l
                 ∧ l = []).
  { intros c0. unfold line44.
    change (Step_eqb precommit prevote) with false.
    rewrite andb_false_r. simpl. exists []. by rewrite app_nil_r. }
  assert (H44 : ∀ (c0 : core Header MC) s0,
            ∃ l, calls (line44 cm r t lh s0 c0).1 = calls c0 ++ l
                 ∧ (l = [] ∨ l = [CallSendPrecommit voteForValue])).
  { intros c0 s0. unfold line44. destruct (_ && _); simpl.
    - exists [CallSendPrecommit voteForValue]. split; [done|by right].
    - exists []. split; [by rewrite app_nil_r|by left]. }
  destruct p as [p|]; [|apply H44].
  destruct (_ && _); [|apply H44].
  destruct (Step_eqb s prevote); simpl.
  - destruct (Hno (set_valid (value (msgCache c) (p_value p)) r
                     (set_step precommit
                        (sendPrecommit voteForValue
                           (set_locked (value (msgCache c) (p_value p)) r c)))))
      as (l & El & ->).
    exists [CallSendPrecommit voteForValue]. split; [|by right].
    rewrite El. simpl. by rewrite app_nil_r.
  - destruct (H44 (set_valid (value (msgCache c) (p_value p)) r c) s)
      as (l & El & Hl).
    exists l. split; [|done]. by rewrite El.
Qed.

Lemma no_precommit_record (k : Call) c :
  isSendPrecommit k = false →
  ∃ l, calls (record k c) = calls c ++ l ∧ List.filter isSendPrecommit l = [].
Proof. intros Hk. exists [k]. split; [done|]. simpl. by rewrite Hk. Qed.

Lemma no_precommit_refl c :
  ∃ l, calls c = calls c ++ l ∧ List.filter isSendPrecommit l = [].
Proof. exists []. by rewrite app_nil_r. Qed.

(** X19: one call of checkUponConditions sends at most one precommit: when
    line 36 has sent it, the local step is precommit and line 44 does not
    send another. *)
Theorem checkUponConditions_sends_one_precommit_at_most c cm c' :
  checkUponConditions c cm = Done c' →
  ∃ l, calls c' = calls c ++ l
    ∧ (length (List.filter isSendPrecommit l) <= 1)%nat.
Proof.
  unfold checkUponConditions.
  destruct (line22 _ _ _ c) as [c1|] eqn:E1; [|done]. rewrite bind_Done.
  destruct (line28 _ _ _ _ _ c1) as [c2|] eqn:E2; [|done]. rewrite bind_Done.
  assert (∃ l, calls c1 = calls c ++ l ∧ List.filter isSendPrecommit l = [])
    as (l1 & C1 & N1).
  { destruct (line22_cases cm (round c) (cm_msgType cm) c) as [E|[E|[b E]]];
      rewrite E in E1; simplify_eq;
      [apply no_precommit_refl|by apply no_precommit_record]. }
  assert (∃ l, calls c2 = calls c1 ++ l ∧ List.filter isSendPrecommit l = [])
    as (l2 & C2 & N2).
  { destruct (line28_cases (matchingProposal (msgCache c) cm) (round c)
                (cm_msgType cm) (lastHeader c) (step c) c1) as [E|[E|[b E]]];
      rewrite E in E2; simplify_eq;
      [apply no_precommit_refl|by apply no_precommit_record]. }
  set (c3 := line34 _ _ _ _ _ _ c2).
  assert (∃ l, calls c3 = calls c2 ++ l ∧ List.filter isSendPrecommit l = [])
    as (l3 & C3 & N3).
  { unfold c3, line34. destruct (_ && _);
      [by apply no_precommit_record|apply no_precommit_refl]. }
  destruct (line36_line44_precommits cm (matchingProposal (msgCache c) cm)
              (round c) (cm_msgType cm) (lastHeader c) (step c) c3)
    as (l4 & C4 & N4).
  destruct (line36 _ _ _ _ _ c3) as [c4 s4]. simpl in C4.
  destruct (line44 _ _ _ _ _ c4) as [c5 s5]. simpl in C4.
  set (c6 := line47 _ _ _ _ _ c5).
  assert (∃ l, calls c6 = calls c5 ++ l ∧ List.filter isSendPrecommit l = [])
    as (l6 & C6 & N6).
  { unfold c6, line47. destruct (_ && _);
      [by apply no_precommit_record|apply no_precommit_refl]. }
  destruct (line49 _ _ _ c6) as [c7|] eqn:E7; [|done]. rewrite bind_Done.
  rewrite line55_id. intros [= <-].
  assert (∃ l, calls c7 = calls c6 ++ l ∧ List.filter isSendPrecommit l = [])
    as (l7 & C7 & N7).
  { unfold line49 in E7. repeat case_match; simplify_eq;
      try apply no_precommit_refl.
    exists [CallCommit b (p_round p)]. by split. }
  exists (l1 ++ l2 ++ l3 ++ l4 ++ l6 ++ l7). split.
  - rewrite C7, C6, C4, C3, C2, C1. by rewrite <- !app_assoc.
  - rewrite !List.filter_app, N1, N2, N3, N6, N7. simpl. rewrite app_nil_r.
    destruct N4 as [->| ->]; simpl; lia.
Qed.

(** X20: whatever the payload, a call of handleMsg that returns leaves the
    round, the header and the three latches (line34Executed,
    line36Executed, line47Executed) as they were, and has neither started
    a round nor verified a proposal. *)
Theorem handleMsg_keeps_round_and_latches c (payload : list byte) c' e :
  handleMsg c payload = Done (c', e) →
  round c' = round c ∧ latches c' = latches c
  ∧ lastHeader c' = lastHeader c
  ∧ (∀ r, In (CallStartRound r) (calls c') → In (CallStartRound r) (calls c))
  ∧ (∀ b, In (CallVerifyProposal b) (calls c')
          → In (CallVerifyProposal b) (calls c)).
Proof using All.
  set (R := λ a b : core Header MC,
         round b = round a ∧ latches b = latches a
         ∧ lastHeader b = lastHeader a
         ∧ (∀ r, In (CallStartRound r) (calls b)
                 → In (CallStartRound r) (calls a))
         ∧ (∀ x, In (CallVerifyProposal x) (calls b)
                 → In (CallVerifyProposal x) (calls a))).
  assert (Hrefl : ∀ a, R a a) by (by intros a).
  assert (Htrans : ∀ a b d, R a b → R b d → R a d).
  { intros a b d (A1 & A2 & A3 & A4 & A5) (B1 & B2 & B3 & B4 & B5).
    repeat split; try congruence; auto. }
  assert (Hrec : ∀ k a, isStartRound k = false → isVerifyProposal k = false →
                        R a (record k a)).
  { intros k a K1 K2. unfold R. repeat split; simpl; intros x;
      rewrite in_app_iff; (intros [Hin|[->|[]]]; [done|by simpl in *]). }
  intros Hh. apply (handleMsg_rel R c payload c' e); try done.
  - intros a. by apply Hrec.
  - intros a cm a' Hc.
    apply (checkUponConditions_rel R (round a) (height a)) with (cm := cm);
      try done.
    intros k b Hk. apply upon_call_cases in Hk as (K1 & K2 & _).
    by apply Hrec.
Qed.

(** *** handleCurrentHeightMessage and handleMsg *)

Lemma handleCurrentHeightMessage_cases c (m : Message) cm c' e :
  handleCurrentHeightMessage c m cm = Done (c', e) →
  (c' = c ∧ e ≠ None)
  ∨ (e = None ∧ CommitteeMember (lastHeader c) (Address m) = true
     ∧ Code m = msgProposal
     ∧ isProposerMsg (lastHeader c) (height c) (cm_round cm) (Address m) = true
     ∧ checkUponConditions c cm = Done c')
  ∨ (e = None ∧ CommitteeMember (lastHeader c) (Address m) = true
     ∧ Code m ≠ msgProposal
     ∧ checkUponConditions (set_msgCache (setValid (msgCache c) (Hash m)) c) cm
       = Done c').
Proof.
  unfold handleCurrentHeightMessage. intros Hh.
  destruct (CommitteeMember (lastHeader c) (Address m)) eqn:Ec; simpl in Hh;
    [|left; by simplify_eq].
  destruct (PayloadNoSig m); [left; by simplify_eq|].
  destruct (CheckValidatorSignature _ _ _); [left; by simplify_eq|].
  destruct (negb (_ =? _)%N); [left; by simplify_eq|].
  destruct (Code m =? msgProposal) eqn:Em.
  - apply Z.eqb_eq in Em.
    destruct (isProposerMsg _ _ _ _) eqn:Ep; simpl in Hh;
      [|left; by simplify_eq].
    destruct (checkUponConditions c cm) as [cz|] eqn:E; [|done].
    rewrite bind_Done in Hh. simplify_eq. right. left. by repeat split.
  - apply Z.eqb_neq in Em.
    destruct (checkUponConditions _ cm) as [cz|] eqn:E; [|done].
    rewrite bind_Done in Hh. simplify_eq. right. right. by repeat split.
Qed.

(** X21: a message that handleCurrentHeightMessage answers with an error
    (a sender outside the committee, a payload or signature error, another
    address behind the signature, a proposal that is not from the proposer)
    leaves the core exactly as it was. When it answers nil, the sender is a
    committee member; a proposal is from the proposer of its round and the
    rules ran on the unchanged core; for any other message the hash of the
    message was marked valid first, and that mark is the only change of the
    cache. *)
Theorem handleCurrentHeightMessage_outcomes c (m : Message) cm c' e :
  handleCurrentHeightMessage c m cm = Done (c', e) →
  (e ≠ None → c' = c)
  ∧ (e = None →
     CommitteeMember (lastHeader c) (Address m) = true
     ∧ (Code m = msgProposal →
        isProposerMsg (lastHeader c) (height c) (cm_round cm) (Address m)
        = true
        ∧ checkUponConditions c cm = Done c'
        ∧ msgCache c' = msgCache c)
     ∧ (Code m ≠ msgProposal →
        checkUponConditions
          (set_msgCache (setValid (msgCache c) (Hash m)) c) cm = Done c'
        ∧ msgCache c' = setValid (msgCache c) (Hash m))).
Proof.
  intros [[-> He]|[(-> & Hc & Hm & Hp & Hu)|(-> & Hc & Hm & Hu)]]
    %handleCurrentHeightMessage_cases.
  - split; [done|]. by intros ->.
  - split; [done|]. intros _. split; [done|]. split; [|done].
    intros _. split; [done|]. split; [done|].
    by destruct (checkUponConditions_frame _ _ _ Hu).
  - split; [done|]. intros _. split; [done|]. split; [done|].
    intros _. split; [done|].
    by destruct (checkUponConditions_frame _ _ _ Hu).
Qed.


(** *** Line 36 on a prevote *)

(** X23: a prevote arrives in step prevote, its matching proposal is of the
    current round, the cache holds a prevote quorum for the value of the
    proposal at the current round, the value is valid and the line-36
    latch is unset. Then checkUponConditions returns; the locked and the
    valid value are what the cache holds as the block of the value (nil
    when it holds none), the locked and the valid round are the current
    round, the step is precommit, and the last call is a precommit with
    voteForValue, preceded by nothing or by the prevote timer of line 34. *)
Theorem line36_locks_on_prevote_quorum c cm (p : proposalSummary) :
  cm_msgType cm = msgPrevote →
  matchingProposal (msgCache c) cm = Some p →
  p_round p = round c →
  prevoteQuorum (msgCache c) (Some (p_value p)) (round c) (lastHeader c)
  = true →
  isValid (msgCache c) (p_value p) = true →
  line36Executed c = false →
  step c = prevote →
  ∃ c', checkUponConditions c cm = Done c'
    ∧ lockedValue c' = value (msgCache c) (p_value p)
    ∧ lockedRound c' = round c
    ∧ validValue c' = value (msgCache c) (p_value p)
    ∧ validRound c' = round c
    ∧ step c' = precommit
    ∧ (calls c' = calls c ++ [CallSendPrecommit voteForValue]
       ∨ calls c'
         = calls c
           ++ [CallScheduleTimeout prevoteTimeout (timeoutPrevote (round c))
                 (round c) (height c) onTimeoutPrecommit;
               CallSendPrecommit voteForValue]).
Proof.
  intros Ht Hp Hr Hq Hv Hl Hs. unfold checkUponConditions.
  rewrite Hp, Ht, Hs.
  assert (E22 : line22 cm (round c) msgPrevote c = Done c) by done.
  rewrite E22, bind_Done.
  assert (E28 : line28 (Some p) (round c) msgPrevote (lastHeader c) prevote c
                = Done c).
  { unfold line28, upon28. change (Step_eqb prevote propose) with false.
    by rewrite andb_false_r. }
  rewrite E28, bind_Done.
  assert (E36 : ∀ c3 : core Header MC,
            msgCache c3 = msgCache c → line36Executed c3 = false →
            line36 (Some p) (round c) msgPrevote (lastHeader c) prevote c3
            = (set_valid (value (msgCache c) (p_value p)) (round c)
                 (set_step precommit
                    (sendPrecommit voteForValue
                       (set_locked (value (msgCache c) (p_value p))
                          (round c) c3))), precommit)).
  { intros c3 Em El. unfold line36.
    rewrite Em, El, Hr, Z.eqb_refl, Hq, Hv. reflexivity. }
  assert (E44 : ∀ c4 : core Header MC,
            line44 cm (round c) msgPrevote (lastHeader c) precommit c4
            = (c4, precommit)).
  { intros c4. unfold line44. change (Step_eqb precommit prevote) with false.
    by rewrite andb_false_r. }
  unfold line34.
  destruct (_ && _ && _ && _ && _).
  - rewrite E36 by done. rewrite E44.
    eexists. split; [reflexivity|]. rewrite line55_id. simpl.
    repeat split. right. by rewrite <- app_assoc.
  - rewrite E36 by done. rewrite E44.
    eexists. split; [reflexivity|]. rewrite line55_id. simpl.
    repeat split. by left.
Qed.

(** *** Where checkUponConditions dereferences nil *)

Lemma line22_Panic c cm :
  line22 cm (round c) (cm_msgType cm) c = Panic
  ↔ lockedValue c = None ∧ line22_reads_lock c cm = true.
Proof.
  unfold line22, line22_reads_lock.
  destruct (upon22 _ _ _ c); simpl; [|intuition congruence].
  destruct (isValid _ _ && _); simpl; [intuition congruence|].
  destruct (lockedValue c); simpl; [|intuition congruence].
  destruct (_ =? _)%N; intuition congruence.
Qed.

Lemma line28_Panic c cm c1 :
  c1 = c ∨ (∃ b, c1 = sendPrevote b c) →
  line28 (matchingProposal (msgCache c) cm) (round c) (cm_msgType cm)
    (lastHeader c) (step c) c1 = Panic
  ↔ lockedValue c = None ∧ line28_reads_lock c cm = true.
Proof.
  intros Hc1. unfold line28_reads_lock, line28.
  assert (E : msgCache c1 = msgCache c ∧ lockedRound c1 = lockedRound c
              ∧ lockedValue c1 = lockedValue c)
    by (destruct Hc1 as [->|[b ->]]; done).
  destruct E as (Em & Er & Ev).
  destruct (matchingProposal _ _) as [p|]; [|intuition congruence].
  assert (Eu : upon28 p (round c) (cm_msgType cm) (lastHeader c) (step c) c1
               = upon28 p (round c) (cm_msgType cm) (lastHeader c) (step c) c)
    by (unfold upon28; by rewrite Em).
  rewrite Eu, Em, Er, Ev.
  destruct (upon28 _ _ _ _ _ c); simpl; [|intuition congruence].
  destruct (isValid _ _); simpl; [|intuition congruence].
  destruct (_ <=? _); simpl; [intuition congruence|].
  destruct (lockedValue c); simpl; [|intuition congruence].
  destruct (_ =? _)%N; intuition congruence.
Qed.

Lemma line49_Panic c cm c6 :
  msgCache c6 = msgCache c →
  line49 (matchingProposal (msgCache c) cm) (cm_msgType cm) (lastHeader c) c6
  = Panic
  ↔ line49_reads_nil_block c cm = true.
Proof.
  intros Em. unfold line49, line49_reads_nil_block. rewrite Em.
  destruct (matchingProposal _ _) as [p|]; [|intuition congruence].
  destruct (in_ _ _ && _); simpl; [|intuition congruence].
  destruct (isValid _ _); simpl; [|intuition congruence].
  destruct (value _ _); intuition congruence.
Qed.

(** X27: checkUponConditions ends in a nil dereference in exactly two
    situations: line 22 or line 28 compares the hash of the locked value
    while nothing is locked, or line 49 finds a precommit quorum for a
    valid value of which the cache holds no block. So with a locked value
    and a cache that holds the block of every valid value it returns on
    every message. *)
Theorem checkUponConditions_panics_on_nil_only c cm :
  (checkUponConditions c cm = Panic
   ↔ derefs_nil_lock c cm = true ∨ line49_reads_nil_block c cm = true)
  ∧ (lockedValue c ≠ None →
     (∀ v, isValid (msgCache c) v = true → value (msgCache c) v ≠ None) →
     ∃ c', checkUponConditions c cm = Done c').
Proof.
  assert (Hiff : checkUponConditions c cm = Panic
            ↔ derefs_nil_lock c cm = true ∨ line49_reads_nil_block c cm = true).
  { pose proof (line22_Panic c cm) as H22.
    unfold checkUponConditions, derefs_nil_lock.
    destruct (line22_cases cm (round c) (cm_msgType cm) c) as [E1|Hc1].
    { rewrite E1; simpl. apply H22 in E1 as [-> ->]. intuition congruence. }
    assert (∃ c1, line22 cm (round c) (cm_msgType cm) c = Done c1
                  ∧ (c1 = c ∨ ∃ b, c1 = sendPrevote b c))
      as (c1 & E1 & Hc1') by (destruct Hc1 as [E|[b E]]; eauto).
    rewrite E1 in H22. rewrite E1, bind_Done.
    pose proof (line28_Panic c cm c1 Hc1') as H28.
    destruct (line28 _ _ _ _ _ c1) as [c2|] eqn:E2; last first.
    { simpl. destruct H28 as [H28 _]. destruct (H28 eq_refl) as [-> ->].
      rewrite orb_true_r. intuition congruence. }
    rewrite bind_Done.
    pose proof (line34_frame cm (round c) (height c) (cm_msgType cm)
                  (lastHeader c) (step c) c2) as F3.
    set (c3 := line34 _ _ _ _ _ _ c2) in *.
    pose proof (line36_frame (matchingProposal (msgCache c) cm) (round c)
                  (cm_msgType cm) (lastHeader c) (step c) c3) as F4.
    destruct (line36 _ _ _ _ _ c3) as [c4 s4]. simpl in F4.
    pose proof (line44_frame cm (round c) (cm_msgType cm) (lastHeader c) s4 c4)
      as F5.
    destruct (line44 _ _ _ _ _ c4) as [c5 s5]. simpl in F5.
    pose proof (line47_frame cm (round c) (height c) (cm_msgType cm)
                  (lastHeader c) c5) as F6.
    set (c6 := line47 _ _ _ _ _ c5) in *.
    assert (F : frame c c6).
    { apply line22_frame in E1. apply line28_frame in E2.
      repeat (eapply frame_trans; [eassumption|]). apply frame_refl. }
    pose proof (line49_Panic c cm c6 (frame_msgCache _ _ F)) as H49.
    assert (Hno : match lockedValue c with
                  | Some _ => false
                  | None => line22_reads_lock c cm || line28_reads_lock c cm
                  end = false).
    { destruct (lockedValue c); [done|]. apply orb_false_iff. split.
      - destruct (line22_reads_lock c cm); [|done].
        by destruct H22 as [_ H22]; specialize (H22 (conj eq_refl eq_refl)).
      - destruct (line28_reads_lock c cm); [|done].
        by destruct H28 as [_ H28]; specialize (H28 (conj eq_refl eq_refl)). }
    rewrite Hno.
    destruct (line49 _ _ _ c6) as [c7|]; simpl; intuition congruence. }
  split; [exact Hiff|]. intros Hl Hv.
  destruct (checkUponConditions c cm) as [c'|] eqn:E; [by eexists|].
  exfalso. destruct Hiff as [Hiff _]. destruct (Hiff eq_refl) as [H1|H2].
  - unfold derefs_nil_lock in H1. destruct (lockedValue c); done.
  - unfold line49_reads_nil_block in H2.
    destruct (matchingProposal _ _) as [p|]; [|done].
    destruct (isValid (msgCache c) (p_value p)) eqn:Ev;
      [|by rewrite andb_false_r in H2].
    apply Hv in Ev. destruct (value _ _); [|done].
    by rewrite andb_false_r in H2.
Qed.

(** *** The rules that a message of each kind can fire *)

Lemma line22_other cm r t c :
  in_ t [msgProposal] = false → line22 cm r t c = Done c.
Proof. intros Ht. unfold line22, upon22. by rewrite Ht. Qed.

Lemma line28_other p r t lh s c :
  in_ t [msgProposal; msgPrevote] = false → line28 p r t lh s c = Done c.
Proof.
  intros Ht. unfold line28, upon28. destruct p; [|done]. by rewrite Ht.
Qed.

Lemma line34_other cm r h t lh s c :
  in_ t [msgPrevote] = false → line34 cm r h t lh s c = c.
Proof. intros Ht. unfold line34. by rewrite Ht. Qed.

Lemma line36_other p r t lh s c :
  in_ t [msgProposal; msgPrevote] = false → line36 p r t lh s c = (c, s).
Proof. intros Ht. unfold line36. destruct p; [|done]. by rewrite Ht. Qed.

Lemma line44_other cm r t lh s c :
  in_ t [msgPrevote] = false → line44 cm r t lh s c = (c, s).
Proof. intros Ht. unfold line44. by rewrite Ht. Qed.

Lemma line47_other cm r h t lh c :
  in_ t [msgPrecommit] = false → line47 cm r h t lh c = c.
Proof. intros Ht. unfold line47. by rewrite Ht. Qed.

Lemma line49_other p t lh c :
  in_ t [msgProposal; msgPrecommit] = false → line49 p t lh c = Done c.
Proof. intros Ht. unfold line49. destruct p; [|done]. by rewrite Ht. Qed.

Lemma adds_refl (P : Call → Prop) c : adds P c c.
Proof. exists []. split; [by rewrite app_nil_r|constructor]. Qed.

Lemma adds_trans (P : Call → Prop) c1 c2 c3 :
  adds P c1 c2 → adds P c2 c3 → adds P c1 c3.
Proof.
  intros (l1 & E1 & H1) (l2 & E2 & H2). exists (l1 ++ l2). split.
  - by rewrite E2, E1, app_assoc.
  - by apply Forall_app.
Qed.

Lemma adds_record (P : Call → Prop) (k : Call) c : P k → adds P c (record k c).
Proof. intros Hk. exists [k]. split; [done|]. by apply Forall_cons_2. Qed.

Lemma adds_calls (P : Call → Prop) c c' : calls c' = calls c → adds P c c'.
Proof. intros E. exists []. split; [by rewrite app_nil_r|constructor]. Qed.

(** What each line adds to the calls, and the height and the step that it
    keeps. *)
Lemma line22_adds (P : Call → Prop) cm r t c c' :
  (∀ b, P (CallSendPrevote b)) →
  line22 cm r t c = Done c' → adds P c c' ∧ height c' = height c.
Proof.
  intros HP. destruct (line22_cases cm r t c) as [E|[E|[b E]]]; rewrite E;
    intros [= <-]; split; try done; [apply adds_refl|by apply adds_record].
Qed.

Lemma line28_adds (P : Call → Prop) p r t lh s c c' :
  (∀ b, P (CallSendPrevote b)) →
  line28 p r t lh s c = Done c' → adds P c c' ∧ height c' = height c.
Proof.
  intros HP. destruct (line28_cases p r t lh s c) as [E|[E|[b E]]]; rewrite E;
    intros [= <-]; split; try done; [apply adds_refl|by apply adds_record].
Qed.

Lemma line34_adds (P : Call → Prop) cm r h t lh s c :
  (∀ tm d f, P (CallScheduleTimeout tm d r h f)) →
  adds P c (line34 cm r h t lh s c) ∧ height (line34 cm r h t lh s c) = height c.
Proof.
  intros HP. unfold line34. destruct (_ && _ && _ && _ && _); split; try done;
    [by apply adds_record|apply adds_refl].
Qed.

Lemma line36_adds (P : Call → Prop) p r t lh s c :
  (∀ b, P (CallSendPrecommit b)) →
  adds P c (line36 p r t lh s c).1 ∧ height (line36 p r t lh s c).1 = height c.
Proof.
  intros HP. unfold line36. destruct p as [p|]; [|split; [apply adds_refl|done]].
  destruct (_ && _ && _ && _ && _ && _); [|split; [apply adds_refl|done]].
  destruct (Step_eqb s prevote); simpl; (split; [|done]).
  - exists [CallSendPrecommit voteForValue]. split; [done|].
    by apply Forall_cons_2.
  - by apply adds_calls.
Qed.

Lemma line44_adds (P : Call → Prop) cm r t lh s c :
  (∀ b, P (CallSendPrecommit b)) →
  adds P c (line44 cm r t lh s c).1 ∧ height (line44 cm r t lh s c).1 = height c.
Proof.
  intros HP. unfold line44. destruct (_ && _ && _ && _); simpl; (split; [|done]).
  - exists [CallSendPrecommit voteForValue]. split; [done|].
    by apply Forall_cons_2.
  - apply adds_refl.
Qed.

Lemma line47_adds (P : Call → Prop) cm r h t lh c :
  (∀ tm d f, P (CallScheduleTimeout tm d r h f)) →
  adds P c (line47 cm r h t lh c) ∧ step (line47 cm r h t lh c) = step c.
Proof.
  intros HP. unfold line47. destruct (_ && _ && _ && _); split; try done;
    [by apply adds_record|apply adds_refl].
Qed.

Lemma line49_adds (P : Call → Prop) p t lh c c' :
  (∀ b r, P (CallCommit b r)) →
  line49 p t lh c = Done c' → adds P c c' ∧ step c' = step c.
Proof.
  intros HP. unfold line49. intros Hc.
  repeat case_match; simplify_eq; (split; [|done]); try apply adds_refl.
  eexists [CallCommit _ _]. split; [done|]. by apply Forall_cons_2.
Qed.

Lemma checkUponConditions_proposal c cm c' :
  cm_msgType cm = msgProposal → checkUponConditions c cm = Done c' →
  adds (λ k, ∀ t d r h f, k ≠ CallScheduleTimeout t d r h f) c c'.
Proof.
  intros Ht. unfold checkUponConditions. rewrite Ht.
  set (P := λ k, ∀ t d r h f, k ≠ CallScheduleTimeout t d r h f).
  destruct (line22 _ _ _ c) as [c1|] eqn:E1; [|done]. rewrite bind_Done.
  destruct (line28 _ _ _ _ _ c1) as [c2|] eqn:E2; [|done]. rewrite bind_Done.
  rewrite line34_other by done.
  pose proof (line36_adds P (matchingProposal (msgCache c) cm) (round c)
                msgProposal (lastHeader c) (step c) c2) as [F4 _]; [done|].
  destruct (line36 _ _ _ _ _ c2) as [c4 s4]. simpl in F4.
  rewrite line44_other, line47_other by done.
  destruct (line49 _ _ _ c4) as [c7|] eqn:E7; [|done].
  rewrite bind_Done, line55_id. intros [= <-].
  apply (line22_adds P) in E1 as [F1 _]; [|done].
  apply (line28_adds P) in E2 as [F2 _]; [|done].
  apply (line49_adds P) in E7 as [F7 _]; [|done].
  repeat (eapply adds_trans; [eassumption|]). apply adds_refl.
Qed.

Lemma checkUponConditions_prevote c cm c' :
  cm_msgType cm = msgPrevote → checkUponConditions c cm = Done c' →
  adds (λ k, ∀ b r, k ≠ CallCommit b r) c c' ∧ height c' = height c.
Proof.
  intros Ht. unfold checkUponConditions. rewrite Ht.
  set (P := λ k, ∀ b r, k ≠ CallCommit b r).
  rewrite line22_other, bind_Done by done.
  destruct (line28 _ _ _ _ _ c) as [c2|] eqn:E2; [|done]. rewrite bind_Done.
  pose proof (line34_adds P cm (round c) (height c) msgPrevote (lastHeader c)
                (step c) c2) as [F3 H3]; [done|].
  set (c3 := line34 _ _ _ _ _ _ c2) in *.
  pose proof (line36_adds P (matchingProposal (msgCache c) cm) (round c)
                msgPrevote (lastHeader c) (step c) c3) as [F4 H4]; [done|].
  destruct (line36 _ _ _ _ _ c3) as [c4 s4]. simpl in F4, H4.
  pose proof (line44_adds P cm (round c) msgPrevote (lastHeader c) s4 c4)
    as [F5 H5]; [done|].
  destruct (line44 _ _ _ _ _ c4) as [c5 s5]. simpl in F5, H5.
  rewrite line47_other, line49_other, bind_Done, line55_id by done.
  intros [= <-].
  apply (line28_adds P) in E2 as [F2 H2]; [|done].
  split; [|congruence].
  repeat (eapply adds_trans; [eassumption|]). apply adds_refl.
Qed.

Lemma checkUponConditions_precommit c cm c' :
  cm_msgType cm = msgPrecommit → checkUponConditions c cm = Done c' →
  adds (λ k, ∀ b, k ≠ CallSendPrevote b ∧ k ≠ CallSendPrecommit b) c c'
  ∧ step c' = step c.
Proof.
  intros Ht. unfold checkUponConditions. rewrite Ht.
  set (P := λ k, ∀ b, k ≠ CallSendPrevote b ∧ k ≠ CallSendPrecommit b).
  rewrite line22_other, bind_Done, line28_other, bind_Done, line34_other,
    line36_other, line44_other by done.
  pose proof (line47_adds P cm (round c) (height c) msgPrecommit (lastHeader c)
                c) as [F6 H6]; [done|].
  set (c6 := line47 _ _ _ _ _ c) in *.
  destruct (line49 _ _ _ c6) as [c7|] eqn:E7; [|done].
  rewrite bind_Done, line55_id. intros [= <-].
  apply (line49_adds P) in E7 as [F7 H7]; [|done].
  split; [|congruence]. by eapply adds_trans.
Qed.

Lemma checkUponConditions_other c cm c' :
  cm_msgType cm ≠ msgProposal → cm_msgType cm ≠ msgPrevote →
  cm_msgType cm ≠ msgPrecommit →
  checkUponConditions c cm = Done c' → c' = c.
Proof.
  intros H0 H1 H2. unfold checkUponConditions.
  assert (E0 : (cm_msgType cm =? consensusMessageType msgProposal) = false)
    by by apply Z.eqb_neq.
  assert (E1 : (cm_msgType cm =? consensusMessageType msgPrevote) = false)
    by by apply Z.eqb_neq.
  assert (E2 : (cm_msgType cm =? consensusMessageType msgPrecommit) = false)
    by by apply Z.eqb_neq.
  rewrite line22_other, bind_Done, line28_other, bind_Done, line34_other,
    line36_other, line44_other, line47_other, line49_other, bind_Done,
    line55_id by (unfold in_; simpl; by rewrite ?E0, ?E1, ?E2).
  by intros [= <-].
Qed.

(** X28: which calls a message can cause depends on its kind. A proposal
    schedules no timeout; a prevote commits no block and leaves the height
    as it is; a precommit sends no vote and leaves the step as it is; and a
    message of any other kind leaves the core as it was. *)
Theorem checkUponConditions_by_message_type c cm c' :
  checkUponConditions c cm = Done c' →
  ∃ l, calls c' = calls c ++ l
    ∧ (cm_msgType cm = msgProposal →
         ∀ t d r h f, ¬ In (CallScheduleTimeout t d r h f) l)
    ∧ (cm_msgType cm = msgPrevote →
         height c' = height c ∧ ∀ b r, ¬ In (CallCommit b r) l)
    ∧ (cm_msgType cm = msgPrecommit →
         step c' = step c
         ∧ ∀ b, ¬ In (CallSendPrevote b) l ∧ ¬ In (CallSendPrecommit b) l)
    ∧ (cm_msgType cm ≠ msgProposal → cm_msgType cm ≠ msgPrevote →
       cm_msgType cm ≠ msgPrecommit → c' = c).
Proof.
  intros Hc.
  destruct (checkUponConditions_frame _ _ _ Hc) as [_ _ _ (l & Hl & _)].
  exists l. split; [done|].
  assert (Hadd : ∀ P : Call → Prop, adds P c c' → Forall P l).
  { intros P (l' & E & HP). rewrite Hl in E. by apply app_inv_head in E as ->. }
  split; [|split; [|split]].
  - intros Ht t d r h f Hin.
    apply checkUponConditions_proposal, Hadd in Hc; [|done].
    rewrite Forall_forall in Hc. apply list_elem_of_In in Hin.
    exact (Hc _ Hin t d r h f eq_refl).
  - intros Ht. apply checkUponConditions_prevote in Hc as [Ha Hh]; [|done].
    split; [done|]. intros b r Hin. apply Hadd in Ha.
    rewrite Forall_forall in Ha. apply list_elem_of_In in Hin.
    exact (Ha _ Hin b r eq_refl).
  - intros Ht. apply checkUponConditions_precommit in Hc as [Ha Hs]; [|done].
    split; [done|]. apply Hadd in Ha. rewrite Forall_forall in Ha.
    intros b. split; intros Hin; apply list_elem_of_In in Hin;
      by destruct (Ha _ Hin b).
  - intros. by eapply checkUponConditions_other.
Qed.

(** *** A second delivery of a payload *)

Section Redelivery.

(** What the handlers need of the message cache for a second delivery:
    a message that was added is found under its hash, and adding a value
    or marking a hash valid loses no message. *)
Hypothesis addMessage_registers :
  ∀ (mc mc' : MC) (m : Message) (cm : consensusMessage),
    addMessage mc m cm = inr mc' → msgCache_Message mc' (Hash m) ≠ None.
Hypothesis addValue_keeps :
  ∀ (mc : MC) (x k : common_Hash) (b : option Block),
    msgCache_Message mc k ≠ None → msgCache_Message (addValue mc x b) k ≠ None.
Hypothesis setValid_keeps :
  ∀ (mc : MC) (x k : common_Hash),
    msgCache_Message mc k ≠ None → msgCache_Message (setValid mc x) k ≠ None.

Lemma mainEventLoop_message_cached c (payload : list byte) :
  msgCache_Message (msgCache c) (Keccak256 payload) ≠ None →
  mainEventLoop_message c payload = Done (c, true).
Proof.
  intros Hc. unfold mainEventLoop_message, handleMsg.
  by destruct (msgCache_Message (msgCache c) (Keccak256 payload)).
Qed.


End Redelivery.

End Upon.

(** *** The statements above on concrete states *)

Lemma checkUponConditions_makes_five_calls_witness :
  ∃ l, calls core36_after = calls core36 ++ l
    ∧ Forall (upon_call 1 10) l
    ∧ ¬ In (CallSendPrecommit voteForNil) l
    ∧ (∀ t d r h f, In (CallScheduleTimeout t d r h f) l →
         r = 1 ∧ h = 10 ∧ f = onTimeoutPrecommit).
Proof.
  apply (checkUponConditions_makes_five_calls core36 prevote36 core36_after).
  vm_compute. reflexivity.
Defined.

Lemma checkUponConditions_sends_one_precommit_at_most_witness :
  ∃ l, calls core36_after = calls core36 ++ l
    ∧ (length (List.filter isSendPrecommit l) <= 1)%nat.
Proof.
  apply (checkUponConditions_sends_one_precommit_at_most core36 prevote36
           core36_after).
  vm_compute. reflexivity.
Defined.

Lemma handleMsg_keeps_round_and_latches_witness :
  round core_fresh_after = round core_fresh
  ∧ latches core_fresh_after = latches core_fresh
  ∧ lastHeader core_fresh_after = lastHeader core_fresh
  ∧ (∀ r, In (CallStartRound r) (calls core_fresh_after)
          → In (CallStartRound r) (calls core_fresh))
  ∧ (∀ b, In (CallVerifyProposal b) (calls core_fresh_after)
          → In (CallVerifyProposal b) (calls core_fresh)).
Proof.
  apply (handleMsg_keeps_round_and_latches core_fresh payload_prevote
           core_fresh_after None).
  vm_compute. reflexivity.
Defined.

Lemma handleCurrentHeightMessage_outcomes_witness :
  checkUponConditions
    (set_msgCache (setValid (msgCache core36) (Hash message36)) core36)
    prevote36 = Done core36_handled
  ∧ msgCache core36_handled = setValid (msgCache core36) (Hash message36).
Proof.
  assert (Hh : handleCurrentHeightMessage core36 message36 prevote36
               = Done (core36_handled, None)) by (vm_compute; reflexivity).
  pose proof (handleCurrentHeightMessage_outcomes core36 message36 prevote36
                core36_handled None Hh) as [_ H2].
  apply (proj2 (proj2 (H2 eq_refl))). discriminate.
Defined.


Lemma line36_locks_on_prevote_quorum_witness :
  ∃ c', checkUponConditions core36 prevote36 = Done c'
    ∧ lockedValue c' = Some block7 ∧ lockedRound c' = 1
    ∧ validValue c' = Some block7 ∧ validRound c' = 1
    ∧ step c' = precommit
    ∧ (calls c' = calls core36 ++ [CallSendPrecommit voteForValue]
       ∨ calls c'
         = calls core36
           ++ [CallScheduleTimeout prevoteTimeout (timeoutPrevote 1) 1 10
                 onTimeoutPrecommit;
               CallSendPrecommit voteForValue]).
Proof.
  exact (line36_locks_on_prevote_quorum core36 prevote36
           (mkProposalSummary 1 7%N (-1)) eq_refl eq_refl eq_refl eq_refl
           eq_refl eq_refl eq_refl).
Defined.

Lemma checkUponConditions_by_message_type_witness :
  ∃ l, calls core49_after = calls core49 ++ l
    ∧ (cm_msgType precommit49 = msgProposal →
         ∀ t d r h f, ¬ In (CallScheduleTimeout t d r h f) l)
    ∧ (cm_msgType precommit49 = msgPrevote →
         height core49_after = height core49
         ∧ ∀ b r, ¬ In (CallCommit b r) l)
    ∧ (cm_msgType precommit49 = msgPrecommit →
         step core49_after = step core49
         ∧ ∀ b, ¬ In (CallSendPrevote b) l ∧ ¬ In (CallSendPrecommit b) l)
    ∧ (cm_msgType precommit49 ≠ msgProposal →
       cm_msgType precommit49 ≠ msgPrevote →
       cm_msgType precommit49 ≠ msgPrecommit → core49_after = core49).
Proof.
  apply (checkUponConditions_by_message_type core49 precommit49 core49_after).
  reflexivity.
Defined.

Lemma tableCache_addMessage_registers (mc mc' : tableCache) (m : Message)
    (cm : consensusMessage) :
  addMessage mc m cm = inr mc' → msgCache_Message mc' (Hash m) ≠ None.
Proof. intros [= <-]. simpl. by rewrite N.eqb_refl. Qed.


End CoreProofs.

(** ** The transaction sender cacher *)

Module TxCacherProofs.
Import TxCacher.

Lemma cache_loop_In (fuel i inc len j : nat) :
  0 < inc → len - i ≤ fuel →
  (In j (cache_loop fuel i inc len) ↔ j < len ∧ ∃ q, j = i + q * inc).
Proof.
  intros Hinc. revert i. induction fuel as [|fuel IH]; intros i Hf; simpl.
  - split; [done|]. intros [Hj (q & ->)]. lia.
  - destruct (i <? len) eqn:E;
      [apply Nat.ltb_lt in E|apply Nat.ltb_ge in E].
    + simpl. rewrite IH by lia. split.
      * intros [<-|[Hj (q & ->)]].
        -- split; [done|]. exists 0. lia.
        -- split; [done|]. exists (S q). lia.
      * intros [Hj (q & ->)]. destruct q as [|q]; [left; lia|].
        right. split; [done|]. exists q. lia.
    + split; [done|]. intros [Hj (q & ->)]. lia.
Qed.

Lemma cache_loop_NoDup (fuel i inc len : nat) :
  0 < inc → len - i ≤ fuel → List.NoDup (cache_loop fuel i inc len).
Proof.
  intros Hinc. revert i. induction fuel as [|fuel IH]; intros i Hf; simpl.
  - constructor.
  - destruct (i <? len); [|constructor]. constructor; [|apply IH; lia].
    rewrite cache_loop_In by lia. intros [_ (q & Hq)]. lia.
Qed.

Lemma recover_loop_open (tasks : nat) (idxs : list nat) :
  recover_loop (λ _, Sent) tasks idxs
  = (map (λ i, mkRequest i tasks) idxs, Returned).
Proof. induction idxs as [|i idxs IH]; simpl; [done|]. by rewrite IH. Qed.

Lemma recover_tasks_min (threads len : nat) :
  recover_tasks threads len = Nat.min threads ((len + 3) / 4).
Proof.
  unfold recover_tasks.
  destruct (len <? threads * 4) eqn:E;
    [apply Nat.ltb_lt in E|apply Nat.ltb_ge in E].
  - assert ((len + 3) / 4 < S threads); [|lia].
    apply Nat.Div0.div_lt_upper_bound. lia.
  - assert (threads ≤ (len + 3) / 4); [|lia].
    apply Nat.div_le_lower_bound; lia.
Qed.

(** X25: for a batch of [len] transactions and a cacher that is not closed
    meanwhile, recover sends min(threads, ⌈len/4⌉) requests, one for each
    offset below that number and all with that number as stride, and
    returns; the task
    of offset [i] recovers the sender of exactly the transactions whose
    index in the batch is [i] modulo the stride, each once. So with at
    least one thread every transaction of the batch is handled by exactly
    one task, the one of offset [j mod tasks]. *)
Theorem recover_splits_the_batch (threads len : nat) :
  0 < threads → 0 < len →
  let tasks := Nat.min threads ((len + 3) / 4) in
  0 < tasks ∧ tasks ≤ len
  ∧ recover threads (λ _, Sent) len
    = (map (λ i, mkRequest i tasks) (seq 0 tasks), Returned)
  ∧ ∀ i, i < tasks →
      List.NoDup (cache_task len (mkRequest i tasks))
      ∧ ∀ j, In j (cache_task len (mkRequest i tasks))
             ↔ j < len ∧ j mod tasks = i.
Proof.
  intros Ht Hlen tasks.
  assert (H4 : 1 ≤ (len + 3) / 4) by (apply Nat.div_le_lower_bound; lia).
  assert (H5 : (len + 3) / 4 ≤ len)
    by (apply Nat.Div0.div_le_upper_bound; lia).
  assert (Hpos : 0 < tasks) by (unfold tasks; lia).
  split; [done|]. split; [unfold tasks; lia|]. split.
  - unfold recover. replace (len =? 0) with false
      by (symmetry; apply Nat.eqb_neq; lia).
    rewrite recover_tasks_min. apply recover_loop_open.
  - intros i Hi. unfold cache_task; simpl. split.
    + apply List.NoDup_map_inv with (f := λ x, x - i).
      rewrite List.map_map.
      rewrite (List.map_ext _ (λ x, x)) by (intros; lia).
      rewrite List.map_id. apply cache_loop_NoDup; lia.
    + intros j. rewrite List.in_map_iff. split.
      * intros (x & <- & Hx). apply cache_loop_In in Hx; [|lia|lia].
        destruct Hx as [Hx (q & ->)]. simpl. split; [lia|].
        rewrite Nat.Div0.mod_add. by apply Nat.mod_small.
      * intros [Hj Hm]. exists (j - i).
        pose proof (Nat.div_mod_eq j tasks) as Hd.
        pose proof (Nat.Div0.mod_le j tasks) as Hle.
        split; [lia|]. apply cache_loop_In; [lia|lia|].
        split; [lia|]. exists (j / tasks). lia.
Qed.

Lemma recover_splits_the_batch_witness :
  0 < 2 ∧ 2 ≤ 10
  ∧ recover 2 (λ _, Sent) 10 = ([mkRequest 0 2; mkRequest 1 2], Returned)
  ∧ ∀ i, i < 2 →
      List.NoDup (cache_task 10 (mkRequest i 2))
      ∧ ∀ j, In j (cache_task 10 (mkRequest i 2)) ↔ j < 10 ∧ j mod 2 = i.
Proof. apply (recover_splits_the_batch 2 10); lia. Defined.

Lemma recover_loop_prefix (env : nat → iteration) (tasks : nat)
    (idxs : list nat) :
  ∃ m, (recover_loop env tasks idxs).1
       = take m (recover_loop (λ _, Sent) tasks idxs).1
     ∧ (∀ k i, k < m → idxs !! k = Some i → env i = Sent)
     ∧ ((m = length idxs ∧ (recover_loop env tasks idxs).2 = Returned)
        ∨ (∃ i, idxs !! m = Some i ∧ env i = LoadClosed
                ∧ (recover_loop env tasks idxs).2 = Returned)
        ∨ (∃ i, idxs !! m = Some i ∧ env i = SendOnClosed
                ∧ (recover_loop env tasks idxs).2 = Panicked)).
Proof.
  induction idxs as [|i idxs (m & E & Hk & Hm)]; simpl.
  - exists 0. split; [done|]. split; [intros; lia|by left].
  - destruct (env i) eqn:Ei; simpl.
    + exists 0. split; [done|]. split; [intros; lia|].
      right; left. by exists i.
    + exists (S m). split; [simpl; by rewrite E|]. split.
      * intros [|k] x Hlt Hx; simpl in Hx; [by simplify_eq|].
        eapply Hk; [|done]. lia.
      * destruct Hm as [[-> Hr]|[Hm|Hm]]; [by left|right; by left|].
        right; by right.
    + exists 0. split; [done|]. split; [intros; lia|].
      right; right. by exists i.
Qed.

(** X26: whatever the iterations meet, the requests that recover sends are
    a prefix of those it sends when the cacher stays open, and every
    iteration before the end of the prefix sent its request. The call
    sends them all and returns; or it returns at the first load that finds
    the cacher closed; or it panics at the first send on the channel that
    Close closed after the load. An empty batch sends nothing and returns,
    and so does a cacher without threads. *)
Theorem recover_sends_a_prefix (threads : nat) (env : nat → iteration)
    (len : nat) :
  (∃ m, (recover threads env len).1
        = take m (recover threads (λ _, Sent) len).1
      ∧ (∀ k, k < m → env k = Sent)
      ∧ ((m = recover_tasks threads len
          ∧ (recover threads env len).2 = Returned)
         ∨ (m < recover_tasks threads len ∧ env m = LoadClosed
            ∧ (recover threads env len).2 = Returned)
         ∨ (m < recover_tasks threads len ∧ env m = SendOnClosed
            ∧ (recover threads env len).2 = Panicked)))
  ∧ recover threads env 0 = ([], Returned)
  ∧ recover 0 env len = ([], Returned).
Proof.
  split; [|split; [done|]].
  - unfold recover. destruct (len =? 0) eqn:El.
    { apply Nat.eqb_eq in El as ->. exists 0.
      split; [done|]. split; [intros; lia|]. left. split; [|done].
      unfold recover_tasks. destruct (0 <? threads * 4) eqn:Et; simpl; [lia|].
      apply Nat.ltb_ge in Et. lia. }
    destruct (recover_loop_prefix env (recover_tasks threads len)
                (seq 0 (recover_tasks threads len))) as (m & E & Hk & Hm).
    exists m. split; [done|]. split.
    + intros k Hlt. apply (Hk k k); [done|].
      apply lookup_seq. split; [done|].
      destruct Hm as [[-> _]|[(i & Hi & _)|(i & Hi & _)]];
        [rewrite length_seq in Hlt; lia| |];
        apply lookup_seq in Hi; lia.
    + destruct Hm as [[-> Hr]|[(i & Hi & Hc & Hr)|(i & Hi & Hc & Hr)]].
      * left. by rewrite length_seq.
      * apply lookup_seq in Hi as [Hi Hlt]. simpl in Hi. subst i.
        right; left. done.
      * apply lookup_seq in Hi as [Hi Hlt]. simpl in Hi. subst i.
        right; right. done.
  - unfold recover, recover_tasks. destruct (len =? 0); [done|].
    replace (len <? 0 * 4) with false by (symmetry; apply Nat.ltb_ge; lia).
    done.
Qed.

End TxCacherProofs.
